(** * Spec lists: matrix expansion, token ordering, references and caches

    A shallow embedding of [lib/spack/spack/spec_list.py]: the ordering
    classifier [spec_ordering_key], the matrix expander
    [_expand_matrix_constraints] with its local helper [_expand_flatten],
    and the [SpecList] container with its reference resolver and its three
    cached views.

    YAML data is a tree of strings, lists and dicts.  Exceptions are values
    of an error monad.  Container objects and the dict objects held by an
    expanded view live in a store, because [_sigilify] updates a dict in
    place and the caches of a referenced container are shared by every
    container that refers to it. *)

From Stdlib Require Import String Ascii List Permutation Sorted Lia.
From stdpp Require Import base option list strings gmap.

(** ** Exceptions *)

Inductive exn : Type :=
| KeyError (key : string)
| IndexError
| TypeError
| ValueError (msg : string)
| AssertionError
| RecursionError
| NoSuchObject  (* an identity without an object: no store built by the
                   operations below has one *)
| SpecListError (msg : string)
| UndefinedReferenceError (msg : string).

Inductive except (A : Type) : Type :=
| Ok (a : A)
| Raise (e : exn).
Arguments Ok {A} a.
Arguments Raise {A} e.

#[global] Instance except_ret : MRet except := fun _ a => Ok a.
#[global] Instance except_bind : MBind except := fun _ _ f m =>
  match m with
  | Ok a => f a
  | Raise e => Raise e
  end.

Section Loops.
Context {M : Type -> Type} `{!MBind M, !MRet M}.

(** [for x in xs: acc = body(acc, x)], stopping at the first exception. *)
Fixpoint for_each {A B} (body : B -> A -> M B) (xs : list A) (acc : B)
  : M B :=
  match xs with
  | [] => mret acc
  | x :: xs' => acc' ← body acc x; for_each body xs' acc'
  end.

(** A list comprehension [[f(x) for x in xs]] whose body may raise. *)
Fixpoint comprehension {A B} (f : A -> M B) (xs : list A) : M (list B) :=
  match xs with
  | [] => mret []
  | x :: xs' => y ← f x; ys ← comprehension f xs'; mret (y :: ys)
  end.
End Loops.

(** ** YAML values *)

#[warnings="-register-all"]
Inductive yaml : Type :=
| YStr (s : string)
| YList (items : list yaml)
| YDict (entries : list (string * yaml)).

(** [d.get(key)]: the value bound to [key], if any. *)
Fixpoint dict_get (key : string) (d : list (string * yaml)) : option yaml :=
  match d with
  | [] => None
  | (k, v) :: d' => if String.eqb k key then Some v else dict_get key d'
  end.

(** The same lookup with the two outcomes passed as continuations; the
    matrix expander recurses into the value it finds, and this shape keeps
    that value a structural subterm of the dict. *)
Definition dict_item {R} (key : string) (found : yaml -> R) (missing : R)
  : list (string * yaml) -> R :=
  fix go d :=
    match d with
    | [] => missing
    | (k, v) :: d' => if String.eqb k key then found v else go d'
    end.

Definition chars (s : string) : list string :=
  (fun c => String c EmptyString) <$> list_ascii_of_string s.

(** What a [for] loop over a value visits: the items of a list, the
    one-character strings of a string, the keys of a dict. *)
Definition py_iter (y : yaml) : list yaml :=
  match y with
  | YList items => items
  | YStr s => YStr <$> chars s
  | YDict d => (fun kv => YStr kv.1) <$> d
  end.

(** Truthiness of a value in [if sigil:]. *)
Definition truthy (y : yaml) : bool :=
  match y with
  | YStr s => negb (String.eqb s "")
  | YList items => negb (bool_decide (items = []))
  | YDict d => negb (bool_decide (d = []))
  end.

(** ** Strings *)

Definition startswith (s prefix : string) : bool := String.prefix prefix s.

(** ['=' in s] for a one-character needle. *)
Definition char_in (c : ascii) (s : string) : bool :=
  existsb (Ascii.eqb c) (list_ascii_of_string s).

(** [sep.join(parts)]. *)
Definition join (sep : string) (parts : list string) : string :=
  String.concat sep parts.

(** ** Ordering classifier *)

Definition spec_ordering_key (s : string) : nat :=
  if startswith s "^" then 5
  else if startswith s "/" then 4
  else if startswith s "%" then 3
  else if existsb (startswith s) (chars "~-+@") || char_in "=" s then 2
  else 1.

(** ** [sorted(xs, key=...)] and [itertools.product] *)

Section Sorting.
Context {A : Type} (key : A -> nat).

(** Insertion in front of the first element whose key is not smaller:
    an element keeps its place before later elements of equal key. *)
Fixpoint insert_by (x : A) (l : list A) : list A :=
  match l with
  | [] => [x]
  | y :: l' => if key x <=? key y then x :: l else y :: insert_by x l'
  end.

(** A stable sort by [key]; Python's [sorted] is stable, and a stable
    sort has only one possible result. *)
Definition sorted (l : list A) : list A := foldr insert_by [] l.
End Sorting.

(** [itertools.product] applied to the rows: the last row varies fastest,
    and no row at all gives the single empty tuple. *)
Fixpoint product {A} (rows : list (list A)) : list (list A) :=
  match rows with
  | [] => [[]]
  | row :: rows' => x ← row; (cons x) <$> product rows'
  end.

(** ** The Spec capability *)

(** Modelled from the spec: the Spec parser and comparator ([spack.spec])
    and the variant substitution ([spack.variant]), which are imported by
    the source and not part of it.  [parse] is [Spec(text)];
    [substitute_abstract_variants] gives the state of the spec after the
    best-effort in-place rewrite, whether or not it reported an unknown
    variant; [Spec_eqb] is [==] on specs; [Spec_str] is [str(spec)]. *)
Class SpecCapability : Type := {
  Spec : Type;
  parse : string -> Spec;
  satisfies : Spec -> Spec -> bool;
  substitute_abstract_variants : Spec -> Spec;
  Spec_eqb : Spec -> Spec -> bool;
  Spec_str : Spec -> string;
}.

(** ** Matrix expander *)

Section MatrixExpander.
Context `{SpecCapability}.

(** What a combo is made of: parsed specs for the top-level call, raw
    tokens when a sub-matrix is expanded. *)
Definition constraint (specify : bool) : Type :=
  if specify then Spec else string.

Definition emit (specify : bool) (ordered_combo : list string)
  : list (constraint specify) :=
  match specify return list (constraint specify) with
  | true => parse <$> ordered_combo
  | false => ordered_combo
  end.

(** [test_spec] of the loop body, after the variant substitution. *)
Definition test_spec_of (ordered_combo : list string) : Spec :=
  substitute_abstract_variants (parse (join " " ordered_combo)).

(** [any(test_spec.satisfies(x) for x in excludes)]: lazy, left to
    right; [satisfies] parses a string argument and rejects any other. *)
Fixpoint any_satisfies (test_spec : Spec) (excludes : list yaml)
  : except bool :=
  match excludes with
  | [] => Ok false
  | YStr x :: rest =>
      if satisfies test_spec (parse x) then Ok true
      else any_satisfies test_spec rest
  | _ :: _ => Raise TypeError
  end.

(** [ordered_combo[0] = sigil + ordered_combo[0]] *)
Definition prepend_sigil (sigil : yaml) (ordered_combo : list string)
  : except (list string) :=
  match ordered_combo with
  | [] => Raise IndexError
  | first :: rest =>
      match sigil with
      | YStr s => Ok ((s +:+ first) :: rest)
      | _ => Raise TypeError
      end
  end.

(** The body of the loop over the product tuples: [None] is [continue]
    (the combo is discarded), [Some] is what gets appended. *)
Definition combo_step (excludes sigil : yaml) (specify : bool)
    (combo : list string) : except (option (list (constraint specify))) :=
  let ordered_combo := sorted spec_ordering_key combo in
  let test_spec := test_spec_of ordered_combo in
  skip ← any_satisfies test_spec (py_iter excludes);
  if (skip : bool) then Ok None
  else
    ordered_combo ← (if truthy sigil then prepend_sigil sigil ordered_combo
                      else Ok ordered_combo);
    Ok (Some (emit specify ordered_combo)).

Definition expand_combos (excludes sigil : yaml) (specify : bool)
    (expanded_rows : list (list string))
  : except (list (list (constraint specify))) :=
  for_each
    (fun results combo =>
       out ← combo_step excludes sigil specify combo;
       Ok (match out with
           | Some c => results ++ [c]
           | None => results
           end))
    (product expanded_rows) [].

(** The local function [_expand_flatten]; [sub] stands for the recursive
    call [_expand_matrix_constraints(cell, specify=False)].  It is only
    ever called on a list; the last two cases are what its loop would visit
    in a string or a dict. *)
Fixpoint _expand_flatten (sub : yaml -> except (list (list string)))
    (row : yaml) {struct row} : except (list string) :=
  match row with
  | YList cells =>
      (fix each (todo : list yaml) : except (list string) :=
         match todo with
         | [] => Ok []
         | cell :: cells' =>
             new ← match cell with
                   | YList _ => _expand_flatten sub cell
                   | YDict _ => rs ← sub cell; Ok (map (join " ") rs)
                   | YStr s => Ok [s]
                   end;
             more ← each cells';
             Ok (new ++ more)
         end) cells
  | YStr s => Ok (chars s)
  | YDict d => Ok (map fst d)
  end.

(** The first loop: one entry of [object['matrix']] after the other. *)
Definition expand_rows (sub : yaml -> except (list (list string)))
  : list yaml -> except (list (list string)) :=
  fix go rows :=
    match rows with
    | [] => Ok []
    | row :: rows' =>
        new ← match row with
              | YList _ => r ← _expand_flatten sub row; Ok [r]
              | YDict _ =>
                  r ← _expand_flatten sub (YList [row]);
                  Ok (map (fun c => [c]) r)
              | YStr s => Ok [[s]]
              end;
        more ← go rows';
        Ok (new ++ more)
    end.

Definition rows_of (sub : yaml -> except (list (list string)))
    (matrix : yaml) : except (list (list string)) :=
  match matrix with
  | YList rows => expand_rows sub rows
  | YStr s => Ok (map (fun c => [c]) (chars s))
  | YDict d => Ok (map (fun kv => [kv.1]) d)
  end.

Definition excludes_of (d : list (string * yaml)) : yaml :=
  default (YList []) (dict_get "exclude" d).

Definition sigil_of (d : list (string * yaml)) : yaml :=
  default (YStr "") (dict_get "sigil" d).

Fixpoint _expand_matrix_constraints (object : yaml) (specify : bool)
    {struct object} : except (list (list (constraint specify))) :=
  match object with
  | YDict d =>
      expanded_rows ←
        dict_item "matrix"
          (rows_of (fun cell => _expand_matrix_constraints cell false))
          (Raise (KeyError "matrix")) d;
      expand_combos (excludes_of d) (sigil_of d) specify expanded_rows
  | _ => Raise TypeError
  end.

(** The rows the product runs over, as the expander computes them. *)
Definition expanded_rows_of (d : list (string * yaml))
  : except (list (list string)) :=
  match dict_get "matrix" d with
  | Some m => rows_of (fun cell => _expand_matrix_constraints cell false) m
  | None => Raise (KeyError "matrix")
  end.

End MatrixExpander.

(** ** Objects: containers and the dicts of expanded views *)

(** Identity of a [SpecList] object, and of a dict created by the
    reference resolver. *)
Definition oid : Type := positive.
Definition loc : Type := positive.

(** An entry of an expanded view.  A dict is held by identity: the view of
    a container and the views of the containers that refer to it share the
    same dict objects. *)
#[warnings="-register-all"]
Inductive val : Type :=
| VStr (s : string)
| VList (items : list val)
| VDict (o : loc).

(** [s[1:]] and [s[0]] on strings. *)
Definition tail (s : string) : string :=
  match s with
  | EmptyString => EmptyString
  | String _ rest => rest
  end.

Definition first_char (s : string) : string :=
  match s with
  | EmptyString => EmptyString
  | String c _ => String c EmptyString
  end.

Definition newline : string := String (ascii_of_nat 10) EmptyString.

Section Containers.
Context `{SpecCapability}.

Record SpecList : Type := mkSpecList {
  name : string;
  _reference : gmap string oid;
  yaml_list : list yaml;
  _expanded_list : option (list val);
  _constraints : option (list (list Spec));
  _specs : option (list Spec);
}.

Definition set_reference (r : gmap string oid) (c : SpecList) : SpecList :=
  mkSpecList (name c) r (yaml_list c) (_expanded_list c) (_constraints c)
    (_specs c).
Definition set_yaml_list (l : list yaml) (c : SpecList) : SpecList :=
  mkSpecList (name c) (_reference c) l (_expanded_list c) (_constraints c)
    (_specs c).
Definition set_expanded_list (e : option (list val)) (c : SpecList)
  : SpecList :=
  mkSpecList (name c) (_reference c) (yaml_list c) e (_constraints c)
    (_specs c).
Definition set_constraints (k : option (list (list Spec))) (c : SpecList)
  : SpecList :=
  mkSpecList (name c) (_reference c) (yaml_list c) (_expanded_list c) k
    (_specs c).
Definition set_specs (k : option (list Spec)) (c : SpecList) : SpecList :=
  mkSpecList (name c) (_reference c) (yaml_list c) (_expanded_list c)
    (_constraints c) k.

(** The store: every container object and every dict of an expanded
    view, by identity. *)
Record heap : Type := mkHeap {
  objects : gmap oid SpecList;
  dicts : gmap loc (gmap string val);
}.

(** A computation reads and updates the store and returns a value or
    raises; the store it leaves behind is kept in both cases. *)
Definition M (A : Type) : Type := heap -> except A * heap.

#[global] Instance M_ret : MRet M := fun _ a h => (Ok a, h).
#[global] Instance M_bind : MBind M := fun _ _ f m h =>
  match m h with
  | (Ok a, h') => f a h'
  | (Raise e, h') => (Raise e, h')
  end.

Definition raise {A} (e : exn) : M A := fun h => (Raise e, h).

Definition get_object (self : oid) : M SpecList := fun h =>
  match objects h !! self with
  | Some c => (Ok c, h)
  | None => (Raise NoSuchObject, h)
  end.

(** An assignment to, or an in-place update of, a field of [self]. *)
Definition update_object (self : oid) (f : SpecList -> SpecList) : M unit :=
  fun h =>
    match objects h !! self with
    | Some c => (Ok tt, mkHeap (<[self := f c]> (objects h)) (dicts h))
    | None => (Raise NoSuchObject, h)
    end.

(** [dict(...)]: a new dict object. *)
Definition new_dict (content : gmap string val) : M loc := fun h =>
  let o := fresh (dom (dicts h)) in
  (Ok o, mkHeap (objects h) (<[o := content]> (dicts h))).

(** The content of the dict object [o], if there is one. *)
Definition read_dict (o : loc) : M (option (gmap string val)) := fun h =>
  (Ok (dicts h !! o), h).

(** [item[key] = v] on the dict object [o]. *)
Definition dict_setitem (o : loc) (key : string) (v : val) : M unit :=
  fun h =>
    match dicts h !! o with
    | Some d => (Ok tt, mkHeap (objects h) (<[o := <[key := v]> d]> (dicts h)))
    | None => (Raise NoSuchObject, h)
    end.

(** The argument of [add] and [remove]: a string or a spec. *)
Inductive spec_like : Type :=
| Text (s : string)
| Parsed (x : Spec).

(** [str(spec)] and [Spec(spec)]. *)
Definition str (spec : spec_like) : string :=
  match spec with
  | Text s => s
  | Parsed x => Spec_str x
  end.

Definition as_spec (spec : spec_like) : Spec :=
  match spec with
  | Text s => parse s
  | Parsed x => x
  end.

(** [SpecList.__init__]; every value of type [yaml] is a string, a list
    or a dict, so the validation of [yaml_list] always passes. *)
Definition __init__ (name : string) (yaml_list : list yaml)
    (reference : gmap string oid) : M oid := fun h =>
  let self := fresh (dom (objects h)) in
  (Ok self,
   mkHeap (<[self := mkSpecList name reference yaml_list None None None]>
             (objects h))
          (dicts h)).

Definition add (self : oid) (spec : spec_like) : M unit :=
  update_object self
    (fun c => set_yaml_list (yaml_list c ++ [YStr (str spec)]) c);;
  (* expanded list can be updated without invalidation *)
  update_object self (fun c =>
    match _expanded_list c with
    | Some l => set_expanded_list (Some (l ++ [VStr (str spec)])) c
    | None => c
    end);;
  (* Invalidate cache variables when we change the list *)
  update_object self (set_constraints None);;
  update_object self (set_specs None).

(** The plain entries [remove] looks at: strings that do not start with
    [$] and parse to a spec equal to the argument. *)
Definition removal_candidates (spec : spec_like) (entries : list yaml)
  : list string :=
  s ← entries;
  match s with
  | YStr s =>
      if negb (startswith s "$") && Spec_eqb (parse s) (as_spec spec)
      then [s] else []
  | _ => []
  end.

(** [l.remove(x)] for a string [x]: drop the first entry equal to it. *)
Fixpoint list_remove (x : string) (l : list yaml) : option (list yaml) :=
  match l with
  | [] => None
  | y :: l' =>
      match y with
      | YStr s => if String.eqb s x then Some l'
                  else cons y <$> list_remove x l'
      | _ => cons y <$> list_remove x l'
      end
  end.

Definition removal_message (spec name : string) : string :=
  ("Cannot remove " +:+ spec +:+ " from SpecList " +:+ name +:+ newline)
  +:+ ("Either " +:+ spec +:+ " is not in " +:+ name +:+ " or " +:+ spec
       +:+ " is ")
  +:+ "expanded from a matrix and cannot be removed directly.".

Definition remove (self : oid) (spec : spec_like) : M unit :=
  c ← get_object self;
  (* Get spec to remove from list *)
  let remove := removal_candidates spec (yaml_list c) in
  match remove with
  | [] => raise (SpecListError (removal_message (str spec) (name c)))
  | first :: others =>
      if bool_decide (length remove = 1) then
        match list_remove first (yaml_list c) with
        | Some l =>
            update_object self (set_yaml_list l);;
            (* invalidate cache variables when we change the list *)
            update_object self (set_expanded_list None);;
            update_object self (set_constraints None);;
            update_object self (set_specs None)
        | None => raise (ValueError "list.remove(x): x not in list")
        end
      else raise AssertionError
  end.

Definition extend (self other : oid) (copy_reference : bool) : M unit :=
  o ← get_object other;
  update_object self (fun c => set_yaml_list (yaml_list c ++ yaml_list o) c);;
  update_object self (set_expanded_list None);;
  update_object self (set_constraints None);;
  update_object self (set_specs None);;
  if copy_reference then
    o ← get_object other;
    update_object self (set_reference (_reference o))
  else mret tt.

Definition update_reference (self : oid) (reference : gmap string oid)
  : M unit :=
  update_object self (set_reference reference);;
  update_object self (set_expanded_list None);;
  update_object self (set_constraints None);;
  update_object self (set_specs None).

Definition undefined_reference_message (self_name name : string) : string :=
  ("SpecList " +:+ self_name +:+ " refers to ")
  +:+ ("named list " +:+ name +:+ " ")
  +:+ "which does not appear in its reference dict".

Definition _parse_reference (self : oid) (token : string)
  : M (string * string) :=
  c ← get_object self;
  let self_name := name c in
  let sigil := "" in
  let name := tail token in
  (* Parse specs as constraints *)
  let '(name, sigil) :=
    if startswith name "^" || startswith name "%"
    then (tail name, first_char name) else (name, sigil) in
  (* Make sure the reference is valid *)
  match _reference c !! name with
  | None =>
      raise (UndefinedReferenceError
               (undefined_reference_message self_name name))
  | Some _ => mret (name, sigil)
  end.

Definition _sigilify (item : val) (sigil : string) : M val :=
  match item with
  | VDict o =>
      (if negb (String.eqb sigil "")
       then dict_setitem o "sigil" (VStr sigil) else mret tt);;
      mret item
  | VStr s => mret (VStr (sigil +:+ s))
  | VList _ => raise TypeError
  end.

(** The body of the loop of [_expand_references] over a list: what one
    [item] adds to [ret].  [view_of] stands for the property
    [specs_as_yaml_list] of a referenced container and [recurse] for the
    recursive call on a nested list or dict. *)
Definition expand_item (self : oid) (view_of : oid -> M (list val))
    (recurse : yaml -> M val) (ret : list val) (item : yaml)
  : M (list val) :=
  match item with
  | YStr s =>
      (* if it's a reference, expand it *)
      if startswith s "$" then
        (* replace the reference and apply the sigil if needed *)
        '(name, sigil) ← _parse_reference self s;
        c ← get_object self;
        match _reference c !! name with
        | Some target =>
            view ← view_of target;
            referent ← comprehension (fun spec => _sigilify spec sigil) view;
            mret (ret ++ referent)
        | None => raise (KeyError name)
        end
      else mret (ret ++ [VStr s])
  | _ =>
      (* else just recurse *)
      v ← recurse item;
      mret (ret ++ [v])
  end.

(** The resolver and the cached property that calls it recurse into
    each other across containers; [depth] is the number of nested calls
    the interpreter still allows. *)
Fixpoint _expand_references (depth : nat) (self : oid) (yaml : yaml)
    {struct depth} : M val :=
  match depth with
  | 0 => raise RecursionError
  | S depth =>
      match yaml with
      | YList items =>
          ret ← for_each
                  (expand_item self (specs_as_yaml_list depth)
                     (_expand_references depth self))
                  items [];
          mret (VList ret)
      | YDict d =>
          (* There can't be expansions in dicts *)
          pairs ← comprehension
            (fun '(name, val) =>
               v ← _expand_references depth self val; mret (name, v))
            d;
          o ← new_dict (list_to_map pairs);
          mret (VDict o)
      | YStr _ =>
          raise (ValueError
            "_expand_references accepts only list or dicts (matrix)")
      end
  end
with specs_as_yaml_list (depth : nat) (self : oid) {struct depth}
  : M (list val) :=
  match depth with
  | 0 => raise RecursionError
  | S depth =>
      c ← get_object self;
      match _expanded_list c with
      | None =>
          v ← _expand_references depth self (YList (yaml_list c));
          match v with
          | VList l =>
              update_object self (set_expanded_list (Some l));;
              mret l
          | _ => raise TypeError  (* a list always expands to a list *)
          end
      | Some l => mret l
      end
  end.

(** The default of [sys.getrecursionlimit()]. *)
Definition recursion_limit : nat := 1000.

(** Two containers and a reference between them, as a program: [B] holds
    [x] and [y], [A] holds the one entry [token] and refers to [B]; the
    result is the expanded view of [A]. *)
Definition reference_demo (token : string) : M (list val) :=
  b ← __init__ "B" [YStr "x"; YStr "y"] ∅;
  a ← __init__ "A" [YStr token] {[ "B" := b ]};
  specs_as_yaml_list recursion_limit a.

(** [A] holds [a] and refers to [B], which holds [x].  The view of [A] is
    read, [$B] is added, the view is read again; then the reference map
    is set again and the view is read a third time.  The result is the
    second and the third view. *)
Definition stale_reference_demo : M (list val * list val) :=
  b ← __init__ "B" [YStr "x"] ∅;
  a ← __init__ "A" [YStr "a"] {[ "B" := b ]};
  specs_as_yaml_list recursion_limit a;;
  add a (Text "$B");;
  cached ← specs_as_yaml_list recursion_limit a;
  update_reference a {[ "B" := b ]};;
  recomputed ← specs_as_yaml_list recursion_limit a;
  mret (cached, recomputed).

Definition empty_heap : heap := mkHeap ∅ ∅.

(** [B] holds the matrix record [{matrix: []}] and [A] holds [$^B]; the
    result is the expanded view of [A] and the content of the dict object
    it shares with the view of [B]. *)
Definition sigil_demo : M (list val * option (gmap string val)) :=
  b ← __init__ "B" [YDict [("matrix", YList [])]] ∅;
  a ← __init__ "A" [YStr "$^B"] {[ "B" := b ]};
  view ← specs_as_yaml_list recursion_limit a;
  record ← read_dict 1%positive;
  mret (view, record).

(** The same with [A] holding [$^B] and then [$%B]. *)
Definition shared_record_demo : M (list val * option (gmap string val)) :=
  b ← __init__ "B" [YDict [("matrix", YList [])]] ∅;
  a ← __init__ "A" [YStr "$^B"; YStr "$%B"] {[ "B" := b ]};
  view ← specs_as_yaml_list recursion_limit a;
  record ← read_dict 1%positive;
  mret (view, record).

(** The test [remove] applies to a raw entry. *)
Definition is_candidate (spec : spec_like) (entry : yaml) : bool :=
  match entry with
  | YStr s => negb (startswith s "$") && Spec_eqb (parse s) (as_spec spec)
  | _ => false
  end.

End Containers.

(** ** A concrete capability for worked examples *)

(** Specs as their text without blanks: [satisfies] and [==] compare the
    texts, and the variant substitution changes nothing.  Only the worked
    examples use it; the theorems hold for every capability. *)
Definition squeeze (s : string) : string :=
  string_of_list_ascii
    (filter (fun c => negb (Ascii.eqb c " ")) (list_ascii_of_string s)).

Definition text_specs : SpecCapability := {|
  Spec := string;
  parse := squeeze;
  satisfies := String.eqb;
  substitute_abstract_variants := fun s => s;
  Spec_eqb := String.eqb;
  Spec_str := fun s => s;
|}.

(** ** Reading the expander's result *)

Section ExpanderSpec.
Context `{SpecCapability}.

(** A sorted combo is excluded when its test spec satisfies one of the
    parsed exclusions. *)
Definition excluded_by (xs : list string) (ordered_combo : list string)
  : bool :=
  existsb (fun x => satisfies (test_spec_of ordered_combo) (parse x)) xs.

(** The product tuples, each sorted, that no exclusion discards. *)
Definition surviving (xs : list string) (rows : list (list string))
  : list (list string) :=
  List.filter (fun oc => negb (excluded_by xs oc))
    (sorted spec_ordering_key <$> product rows).

(** The sigil on the first token of a sorted combo; no sigil leaves the
    combo as it is. *)
Definition with_sigil (s : string) (ordered_combo : list string)
  : except (list string) :=
  if String.eqb s "" then Ok ordered_combo
  else match ordered_combo with
       | [] => Raise IndexError
       | first :: rest => Ok ((s +:+ first) :: rest)
       end.

(** The recursive call made for a sub-matrix cell. *)
Definition expand_cell (cell : yaml) : except (list (list string)) :=
  _expand_matrix_constraints cell false.
End ExpanderSpec.

(** Ascending order of the keys along a list. *)
Definition ascending {A} (key : A -> nat) (l : list A) : Prop :=
  StronglySorted (fun x y => key x <= key y) l.

(** The product of the lengths of the rows. *)
Definition rows_product (rows : list (list string)) : nat :=
  foldr Nat.mul 1 (length <$> rows).

(** The sigil in front of the first token, every other token untouched. *)
Definition sigil_on_first (s : string) (ordered_combo : list string)
  : list string :=
  match ordered_combo with
  | [] => []
  | first :: rest => (s +:+ first) :: rest
  end.

(** Whether a combo has a first token. *)
Definition has_first (ordered_combo : list string) : bool :=
  match ordered_combo with
  | [] => false
  | _ :: _ => true
  end.

(** ** Matrix records used in the worked examples *)

Definition strings (l : list string) : yaml := YList (YStr <$> l).

(** [{matrix: [["pkg"], ["@1.0", "@2.0"]], exclude: ["pkg@2.0"]}] *)
Definition pkg_matrix : list (string * yaml) :=
  [("matrix", YList [strings ["pkg"]; strings ["@1.0"; "@2.0"]]);
   ("exclude", strings ["pkg@2.0"])].

(** [{matrix: [["pkg"], ["@1.0"]], sigil: "^"}] *)
Definition sigil_matrix : list (string * yaml) :=
  [("matrix", YList [strings ["pkg"]; strings ["@1.0"]]);
   ("sigil", YStr "^")].

(** [{matrix: [], sigil: s}] *)
Definition rowless_matrix (sigil : string) : list (string * yaml) :=
  [("matrix", YList []); ("sigil", YStr sigil)].

(** [{matrix: [{matrix: [[]]}], sigil: "^"}]: one row, a sub-matrix whose
    only row offers no alternative. *)
Definition hollow_matrix : list (string * yaml) :=
  [("matrix", YList [YDict [("matrix", YList [YList []])]]);
   ("sigil", YStr "^")].

(** [{matrix: [["zlib", {matrix: [["+shared"], ["^mpi"]]}], ["%gcc"]]}] *)
Definition nested_matrix : list (string * yaml) :=
  [("matrix",
    YList [YList [YStr "zlib";
                  YDict [("matrix",
                          YList [strings ["+shared"]; strings ["^mpi"]])]];
           strings ["%gcc"]])].

(** ** A store used in the worked examples *)

(** Container [B] holds [x] and [y] and has its expanded view cached;
    container [A] holds [a], [$^B], [b ] and a matrix, refers to [B] under
    the name [B], and has its three views cached. *)
Definition demo_B : SpecList (H := text_specs) :=
  mkSpecList "B" ∅ [YStr "x"; YStr "y"] (Some [VStr "x"; VStr "y"]) None None.

Definition demo_A : SpecList (H := text_specs) :=
  @mkSpecList text_specs "A" {[ "B" := 1%positive ]}
    [YStr "a"; YStr "$^B"; YStr "b "; YDict pkg_matrix]
    (Some [VStr "a"; VStr "^x"; VStr "^y"; VStr "b "; VDict 1%positive])
    (Some ([["a"]; ["^x"]; ["^y"]; ["b"]; ["pkg"; "@1.0"]]
           : list (list string)))
    (Some (["a"; "^x"; "^y"; "b"; "pkg@1.0"] : list string)).

Definition demo_heap : heap (H := text_specs) :=
  mkHeap {[ 1%positive := demo_B; 2%positive := demo_A ]}
         {[ 1%positive :=
              {[ "matrix" :=
                   VList [VList [VStr "pkg"]; VList [VStr "@1.0"; VStr "@2.0"]];
                 "exclude" := VList [VStr "pkg@2.0"] ]} ]}.

(** ** Constraints and specs of a container *)

(** Modelled from the spec: the two remaining operations of the Spec
    capability ([spack.spec] is imported by the source and not part of
    it).  [Spec_copy] is [spec.copy()]; [constrain] gives the state of the
    spec after [spec.constrain(other)] has narrowed it in place, or the
    exception the capability raises on a contradiction. *)
Class SpecMerging `{SpecCapability} : Type := {
  Spec_copy : Spec -> Spec;
  constrain : Spec -> Spec -> except Spec;
}.

(** [l[key]] for an integer key: a negative key counts from the end. *)
Definition list_getitem {A} (l : list A) (key : Z) : except A :=
  let n := Z.of_nat (length l) in
  let i := if (key <? 0)%Z then (key + n)%Z else key in
  if (i <? 0)%Z || (n <=? i)%Z then Raise IndexError
  else match l !! Z.to_nat i with
       | Some x => Ok x
       | None => Raise IndexError
       end.

(** The record behind a dict object, read through the store the way the
    matrix expander reads it: [depth] bounds the nesting of dict objects.
    The keys come out in the order of the map; the expander looks the keys
    [matrix], [exclude] and [sigil] up and never depends on that order for
    a record whose [matrix] and [exclude] are lists. *)
Fixpoint snapshot (depth : nat) (ds : gmap loc (gmap string val))
    {struct depth} : val -> except yaml :=
  fix read (v : val) : except yaml :=
    match v with
    | VStr s => Ok (YStr s)
    | VList items =>
        ys ← (fix each (todo : list val) : except (list yaml) :=
                match todo with
                | [] => Ok []
                | x :: todo' => y ← read x; ys ← each todo'; Ok (y :: ys)
                end) items;
        Ok (YList ys)
    | VDict o =>
        match depth with
        | 0 => Raise RecursionError
        | S depth' =>
            match ds !! o with
            | Some d =>
                entries ← comprehension
                  (fun kv => y ← snapshot depth' ds kv.2; Ok (kv.1, y))
                  (map_to_list d);
                Ok (YDict entries)
            | None => Raise NoSuchObject
            end
        end
    end.

Section Views.
Context `{SpecMerging}.

(** A computation that does not touch the store. *)
Definition lift {A} (r : except A) : M A := fun h => (r, h).

Definition get_dicts : M (gmap loc (gmap string val)) := fun h =>
  (Ok (dicts h), h).

(** The body of the loop of [specs_as_constraints]: what one entry of the
    expanded view adds to [constraints]. *)
Definition constraints_of_item (depth : nat)
    (constraints : list (list Spec)) (item : val) : M (list (list Spec)) :=
  match item with
  | VDict _ =>
      (* matrix of specs *)
      ds ← get_dicts;
      object ← lift (snapshot depth ds item);
      combos ← lift (_expand_matrix_constraints object true);
      mret (constraints ++ combos)
  | VStr s =>
      (* individual spec *)
      mret (constraints ++ [[parse s]])
  | VList _ => raise TypeError
  end.

Definition specs_as_constraints (depth : nat) (self : oid)
  : M (list (list Spec)) :=
  match depth with
  | 0 => raise RecursionError
  | S depth =>
      c ← get_object self;
      match _constraints c with
      | None =>
          view ← specs_as_yaml_list depth self;
          constraints ← for_each (constraints_of_item depth) view [];
          update_object self (set_constraints (Some constraints));;
          mret constraints
      | Some constraints => mret constraints
      end
  end.

(** The body of the loop of [specs]: the first constraint, copied, then
    narrowed by every other constraint in turn. *)
Definition spec_of_constraints (constraint_list : list Spec) : except Spec :=
  match constraint_list with
  | [] => Raise IndexError
  | first :: rest => for_each constrain rest (Spec_copy first)
  end.

Definition specs (depth : nat) (self : oid) : M (list Spec) :=
  match depth with
  | 0 => raise RecursionError
  | S depth =>
      c ← get_object self;
      match _specs c with
      | None =>
          constraints ← specs_as_constraints depth self;
          specs ← for_each
                    (fun specs constraint_list =>
                       spec ← lift (spec_of_constraints constraint_list);
                       mret (specs ++ [spec]))
                    constraints [];
          update_object self (set_specs (Some specs));;
          mret specs
      | Some specs => mret specs
      end
  end.

Definition __len__ (depth : nat) (self : oid) : M nat :=
  match depth with
  | 0 => raise RecursionError
  | S depth => l ← specs depth self; mret (length l)
  end.

Definition __getitem__ (depth : nat) (self : oid) (key : Z) : M Spec :=
  match depth with
  | 0 => raise RecursionError
  | S depth => l ← specs depth self; lift (list_getitem l key)
  end.

End Views.

(** [copy] changes nothing on a text, and [constrain] puts the two texts
    together, except that two texts with different version parts [@...]
    contradict each other. *)
Definition text_constrain (a b : string) : except string :=
  if startswith a "@" && startswith b "@" && negb (String.eqb a b)
  then Raise (ValueError "contradiction")
  else Ok (a +:+ b).

#[global] Instance text_merging : SpecMerging (H := text_specs) :=
  @Build_SpecMerging text_specs (fun s : string => s) text_constrain.

(** * Worked examples *)

Example ordering_keys :
  spec_ordering_key <$> ["^mpi"; "/abcdef"; "%gcc"; "~shared"; "-shared";
                         "+shared"; "@1.0"; "cflags=-O2"; "zlib"; ""]
  = [5; 4; 3; 2; 2; 2; 2; 2; 1; 1].
Proof. reflexivity. Qed.

(** The first matching test decides: a leading [^] wins over a contained
    [=]. *)
Example ordering_key_first_match : spec_ordering_key "^mpi+a=b" = 5.
Proof. reflexivity. Qed.

(** Equal keys keep their order: [@2.0] stays in front of [+debug]. *)
Example sorted_is_stable :
  sorted spec_ordering_key ["%gcc"; "@2.0"; "zlib"; "+debug"]
  = ["zlib"; "@2.0"; "+debug"; "%gcc"].
Proof. reflexivity. Qed.

Example product_order :
  product [["a"; "b"]; ["1"; "2"]]
  = [["a"; "1"]; ["a"; "2"]; ["b"; "1"]; ["b"; "2"]].
Proof. reflexivity. Qed.

Example product_of_no_rows : product (A := string) [] = [[]].
Proof. reflexivity. Qed.

Example product_with_empty_row : product [["a"; "b"]; []] = [].
Proof. reflexivity. Qed.

(** A row that is a matrix gives one single-entry row per combo, so both
    of its combos end up in every outer combo. *)
Example matrix_as_row `{SpecCapability} :
  _expand_matrix_constraints
    (YDict [("matrix",
             YList [strings ["zlib"];
                    YDict [("matrix",
                            YList [strings ["^mpich"; "^openmpi"]])]])])
    false
  = Ok [["zlib"; "^mpich"; "^openmpi"]].
Proof. reflexivity. Qed.

Example missing_matrix_key `{SpecCapability} :
  _expand_matrix_constraints (YDict [("exclude", strings ["zlib"])]) true
  = Raise (KeyError "matrix").
Proof. reflexivity. Qed.

(** How a matrix record comes to have a sigil: [B] holds the record
    [{matrix: []}], [A] holds [$^B]; the expanded view of [A] is that one
    dict object, which now reads [{matrix: [], sigil: "^"}]. *)
Example sigil_reaches_a_matrix `{SpecCapability} :
  (sigil_demo empty_heap).1
  = Ok ([VDict 1%positive],
        Some ({[ "matrix" := VList []; "sigil" := VStr "^" ]}
              : gmap string val)).
Proof. by vm_compute. Qed.

(** Two references to the same container put the same dict object in the
    view twice; the sigil of the second reference overwrites the first. *)
Example shared_record_keeps_last_sigil `{SpecCapability} :
  (shared_record_demo empty_heap).1
  = Ok ([VDict 1%positive; VDict 1%positive],
        Some ({[ "matrix" := VList []; "sigil" := VStr "%" ]}
              : gmap string val)).
Proof. by vm_compute. Qed.

(** * Facts about the loops *)

Lemma except_bind_ok {A B} (m : except A) (f : A -> except B) b :
  m ≫= f = Ok b <-> exists a, m = Ok a /\ f a = Ok b.
Proof.
  destruct m as [a|e]; simpl.
  - split; [eauto | by intros (? & [= <-] & ?)].
  - split; [done | by intros (? & ? & ?)].
Qed.

Lemma comprehension_ok_fmap {A B} (f : A -> except B) (g : A -> B) xs :
  Forall (fun x => f x = Ok (g x)) xs ->
  comprehension f xs = Ok (g <$> xs).
Proof.
  induction 1 as [|x xs Hx _ IH]; [done|].
  cbn [comprehension]. rewrite Hx. simpl. by rewrite IH.
Qed.

Lemma comprehension_ok_length {A B} (f : A -> except B) xs ys :
  comprehension f xs = Ok ys -> length ys = length xs.
Proof.
  revert ys. induction xs as [|x xs IH]; intros ys; cbn [comprehension].
  - by intros [= <-].
  - destruct (f x) as [y|]; [|done]. simpl.
    destruct (comprehension f xs) as [ys'|]; [|done]. simpl.
    intros [= <-]. simpl. f_equal. by apply IH.
Qed.

Lemma comprehension_ok_Forall2 {A B} (f : A -> except B) xs ys :
  comprehension f xs = Ok ys -> Forall2 (fun x y => f x = Ok y) xs ys.
Proof.
  revert ys. induction xs as [|x xs IH]; intros ys; cbn [comprehension].
  - intros [= <-]. constructor.
  - destruct (f x) as [y|] eqn:Hy; [|done]. simpl.
    destruct (comprehension f xs) as [ys'|]; [|done]. simpl.
    intros [= <-]. constructor; [done | by apply IH].
Qed.

(** * Stable sorting by key *)

Section SortingFacts.
Context {A : Type} (key : A -> nat).

Lemma insert_by_perm x l : Permutation (insert_by key x l) (x :: l).
Proof.
  induction l as [|y l IH]; simpl; [reflexivity|].
  destruct (key x <=? key y); [reflexivity|].
  rewrite IH. apply perm_swap.
Qed.

Lemma sorted_perm l : Permutation (sorted key l) l.
Proof.
  induction l as [|x l IH]; simpl; [reflexivity|].
  rewrite insert_by_perm. by constructor.
Qed.

Lemma sorted_length l : length (sorted key l) = length l.
Proof. apply Permutation_length, sorted_perm. Qed.

Lemma insert_by_ascending x l :
  ascending key l -> ascending key (insert_by key x l).
Proof.
  unfold ascending. induction 1 as [|y l Hs IH Hy]; simpl.
  - constructor; [constructor | constructor].
  - destruct (Nat.leb_spec (key x) (key y)) as [Hle|Hgt].
    + constructor; [by constructor|].
      constructor; [done|].
      eapply Forall_impl; [exact Hy|]. simpl. intros; lia.
    + constructor; [done|].
      eapply Permutation_Forall; [symmetry; apply insert_by_perm|].
      constructor; [lia | done].
Qed.

Lemma sorted_ascending l : ascending key (sorted key l).
Proof.
  induction l as [|x l IH]; simpl; [constructor|].
  by apply insert_by_ascending.
Qed.

(** Stability: the elements of any one key come out in the order they
    went in. *)
Lemma insert_by_stable k x l :
  ascending key l ->
  List.filter (fun y => key y =? k) (insert_by key x l)
  = List.filter (fun y => key y =? k) (x :: l).
Proof.
  unfold ascending. induction 1 as [|y l Hs IH Hy]; [done|].
  cbn [insert_by].
  destruct (Nat.leb_spec (key x) (key y)) as [Hle|Hgt]; [done|].
  cbn [List.filter] in *. rewrite IH.
  destruct (Nat.eqb_spec (key x) k) as [Hx|Hx];
    destruct (Nat.eqb_spec (key y) k) as [Hyk|Hyk]; try done.
  lia.
Qed.

Lemma sorted_stable k l :
  List.filter (fun y => key y =? k) (sorted key l)
  = List.filter (fun y => key y =? k) l.
Proof.
  induction l as [|x l IH]; [done|].
  cbn [sorted foldr]. fold (sorted key l).
  rewrite insert_by_stable by apply sorted_ascending.
  cbn [List.filter]. by rewrite IH.
Qed.
End SortingFacts.

(** * The Cartesian product *)

Lemma product_length (rows : list (list string)) :
  length (product rows) = rows_product rows.
Proof.
  unfold rows_product. induction rows as [|row rows IH]; [done|].
  cbn [product fmap list_fmap foldr]. rewrite <- IH. clear IH.
  induction row as [|x row IH]; [done|].
  change (length ((cons x <$> product rows)
                  ++ (y ← row; cons y <$> product rows))
          = length (product rows) + length row * length (product rows)).
  by rewrite length_app, length_fmap, IH.
Qed.

Lemma product_tuples {A} (rows : list (list A)) tuple :
  tuple ∈ product rows <-> Forall2 (fun token row => token ∈ row) tuple rows.
Proof.
  revert tuple. induction rows as [|row rows IH]; intros tuple.
  - cbn. rewrite list_elem_of_singleton. split.
    + intros ->. constructor.
    + by inversion 1.
  - cbn [product]. rewrite list_elem_of_bind. split.
    + intros (x & Hin & Hx). apply list_elem_of_fmap in Hin as (t & -> & Ht).
      constructor; [done | by apply IH].
    + inversion 1 as [|x ? t ? Hx Ht]; subst. exists x. split; [|done].
      apply list_elem_of_fmap. exists t. split; [done | by apply IH].
Qed.

Lemma product_tuple_nonempty {A} (rows : list (list A)) tuple :
  rows <> [] -> tuple ∈ product rows -> tuple <> [].
Proof.
  intros Hrows Hin. apply product_tuples in Hin.
  destruct Hin; [done | discriminate].
Qed.

(** * The matrix expander, one step at a time *)

Section ExpanderFacts.
Context `{SpecCapability}.

Lemma dict_item_get {R} key (found : yaml -> R) missing d :
  dict_item key found missing d
  = match dict_get key d with
    | Some v => found v
    | None => missing
    end.
Proof.
  induction d as [|[k v] d IH]; [done|].
  cbn. by destruct (String.eqb k key).
Qed.

(** The expander is its two loops, one after the other. *)
Lemma expand_unfold d specify :
  _expand_matrix_constraints (YDict d) specify
  = expanded_rows_of d
      ≫= expand_combos (excludes_of d) (sigil_of d) specify.
Proof.
  cbn [_expand_matrix_constraints]. rewrite dict_item_get.
  unfold expanded_rows_of. by destruct (dict_get "matrix" d).
Qed.

Lemma any_satisfies_strings test_spec xs :
  any_satisfies test_spec (YStr <$> xs)
  = Ok (existsb (fun x => satisfies test_spec (parse x)) xs).
Proof.
  induction xs as [|x xs IH]; [done|].
  cbn. by destruct (satisfies test_spec (parse x)).
Qed.

Lemma prepend_with_sigil s oc :
  (if truthy (YStr s) then prepend_sigil (YStr s) oc else Ok oc)
  = with_sigil s oc.
Proof.
  unfold with_sigil, truthy, prepend_sigil.
  destruct (String.eqb s ""); [done|]. by destruct oc.
Qed.

(** One pass of the loop body: discard, or put the sigil on and emit. *)
Lemma combo_step_spec excludes xs s specify combo :
  py_iter excludes = YStr <$> xs ->
  combo_step excludes (YStr s) specify combo
  = let oc := sorted spec_ordering_key combo in
    if excluded_by xs oc then Ok None
    else with_sigil s oc ≫= fun oc' => Ok (Some (emit specify oc')).
Proof.
  intros Hxs. unfold combo_step. rewrite Hxs, any_satisfies_strings.
  cbn zeta. fold (excluded_by xs (sorted spec_ordering_key combo)).
  cbn [mbind except_bind].
  destruct (excluded_by xs _); [done|]. by rewrite prepend_with_sigil.
Qed.

(** The second loop is a pipeline: sort every tuple, drop the excluded
    ones, put the sigil on each survivor in turn, emit. *)
Lemma expand_combos_pipeline excludes xs s specify rows :
  py_iter excludes = YStr <$> xs ->
  expand_combos excludes (YStr s) specify rows
  = comprehension (with_sigil s) (surviving xs rows)
      ≫= fun out => Ok (emit specify <$> out).
Proof.
  intros Hxs. unfold expand_combos, surviving.
  generalize (product rows) as combos.
  enough (Hacc : forall combos acc,
    for_each
      (fun results combo =>
         combo_step excludes (YStr s) specify combo ≫= fun out =>
         Ok (match out with Some c => results ++ [c] | None => results end))
      combos acc
    = comprehension (with_sigil s)
        (List.filter (fun oc => negb (excluded_by xs oc))
           (sorted spec_ordering_key <$> combos))
        ≫= fun out => Ok (acc ++ (emit specify <$> out))).
  { intros combos. apply (Hacc combos []). }
  induction combos as [|combo combos IH]; intros acc.
  - cbn. by rewrite app_nil_r.
  - cbn [for_each fmap list_fmap List.filter].
    rewrite (combo_step_spec _ xs) by done. cbn zeta.
    destruct (excluded_by xs _); cbn [negb mbind except_bind].
    + apply IH.
    + cbn [comprehension].
      destruct (with_sigil s _) as [oc'|e]; cbn [mbind except_bind]; [|done].
      rewrite IH.
      destruct (comprehension _ _) as [out|e]; cbn; [|done].
      by rewrite <- app_assoc.
Qed.

Lemma expand_pipeline d rows xs s specify :
  expanded_rows_of d = Ok rows ->
  py_iter (excludes_of d) = YStr <$> xs ->
  sigil_of d = YStr s ->
  _expand_matrix_constraints (YDict d) specify
  = comprehension (with_sigil s) (surviving xs rows)
      ≫= fun out => Ok (emit specify <$> out).
Proof.
  intros Hrows Hxs Hs. rewrite expand_unfold, Hrows, Hs.
  by apply expand_combos_pipeline.
Qed.

Lemma surviving_sorted xs rows oc :
  oc ∈ surviving xs rows ->
  exists tuple, tuple ∈ product rows
                /\ oc = sorted spec_ordering_key tuple
                /\ excluded_by xs oc = false.
Proof.
  unfold surviving. rewrite list_elem_of_In, filter_In, <- list_elem_of_In.
  intros [Hin Hkeep]. apply list_elem_of_fmap in Hin as (tuple & -> & Hin).
  exists tuple. split_and!; [done..|]. by apply negb_true_iff.
Qed.

Lemma surviving_nonempty xs rows :
  rows <> [] -> Forall (fun oc => oc <> []) (surviving xs rows).
Proof.
  intros Hrows. apply Forall_forall. intros oc Hin.
  apply surviving_sorted in Hin as (tuple & Hin & -> & _).
  intros E. apply (f_equal length) in E. rewrite sorted_length in E.
  apply (product_tuple_nonempty rows tuple Hrows Hin). by destruct tuple.
Qed.

Lemma with_sigil_nonempty s oc :
  oc <> [] ->
  with_sigil s oc
  = Ok (if String.eqb s "" then oc
        else match oc with
             | [] => []
             | first :: rest => (s +:+ first) :: rest
             end).
Proof.
  intros Hoc. unfold with_sigil. destruct (String.eqb s ""); [done|].
  by destruct oc.
Qed.
End ExpanderFacts.

(** * Flattening rows *)

Section FlattenFacts.
Context `{SpecCapability}.
Variable sub : yaml -> except (list (list string)).

Lemma flatten_cons cell cells :
  _expand_flatten sub (YList (cell :: cells))
  = (new ← match cell with
           | YList _ => _expand_flatten sub cell
           | YDict _ => rs ← sub cell; Ok (map (join " ") rs)
           | YStr s => Ok [s]
           end;
     more ← _expand_flatten sub (YList cells);
     Ok (new ++ more)).
Proof. reflexivity. Qed.

Lemma flatten_app cells1 cells2 :
  _expand_flatten sub (YList (cells1 ++ cells2))
  = (a ← _expand_flatten sub (YList cells1);
     b ← _expand_flatten sub (YList cells2);
     Ok (a ++ b)).
Proof.
  induction cells1 as [|cell cells1 IH].
  - cbn [app]. change (_expand_flatten sub (YList [])) with (Ok (@nil string)).
    cbn [mbind except_bind].
    by destruct (_expand_flatten sub (YList cells2)).
  - rewrite <- app_comm_cons, !flatten_cons, IH.
    destruct (match cell with YStr _ => _ | _ => _ end) as [new|]; [|done].
    cbn [mbind except_bind].
    destruct (_expand_flatten sub (YList cells1)) as [a|]; [|done].
    cbn [mbind except_bind].
    destruct (_expand_flatten sub (YList cells2)) as [b|]; [|done].
    cbn [mbind except_bind]. by rewrite app_assoc.
Qed.

Lemma expand_rows_cons row rows :
  expand_rows sub (row :: rows)
  = (new ← match row with
           | YList _ => r ← _expand_flatten sub row; Ok [r]
           | YDict _ =>
               r ← _expand_flatten sub (YList [row]);
               Ok (map (fun c => [c]) r)
           | YStr s => Ok [[s]]
           end;
     more ← expand_rows sub rows;
     Ok (new ++ more)).
Proof. reflexivity. Qed.

Lemma expand_rows_app rows1 rows2 :
  expand_rows sub (rows1 ++ rows2)
  = (a ← expand_rows sub rows1;
     b ← expand_rows sub rows2;
     Ok (a ++ b)).
Proof.
  induction rows1 as [|row rows1 IH].
  - cbn [app]. change (expand_rows sub []) with (Ok (@nil (list string))).
    cbn [mbind except_bind]. by destruct (expand_rows sub rows2).
  - rewrite <- app_comm_cons, !expand_rows_cons, IH.
    destruct (match row with YStr _ => _ | _ => _ end) as [new|]; [|done].
    cbn [mbind except_bind].
    destruct (expand_rows sub rows1) as [a|]; [|done].
    cbn [mbind except_bind].
    destruct (expand_rows sub rows2) as [b|]; [|done].
    cbn [mbind except_bind]. by rewrite app_assoc.
Qed.

(** Rows that are lists or strings give one expanded row each. *)
Lemma expand_rows_length rows expanded :
  Forall (fun row => forall e, row <> YDict e) rows ->
  expand_rows sub rows = Ok expanded ->
  length expanded = length rows.
Proof.
  intros Hrows. revert expanded.
  induction Hrows as [|row rows Hrow _ IH]; intros expanded.
  - by intros [= <-].
  - rewrite expand_rows_cons.
    intros (new & Hnew & (more & Hmore & [= <-])%except_bind_ok)%except_bind_ok.
    rewrite length_app, (IH more Hmore). cbn [length]. f_equal.
    destruct row as [s|cells|e].
    + by injection Hnew as <-.
    + apply except_bind_ok in Hnew as (r & _ & [= <-]). done.
    + by destruct (Hrow e).
Qed.
End FlattenFacts.

(** A matrix whose rows are lists of strings is expanded to those rows. *)
Lemma flatten_strings `{SpecCapability} sub (row : list string) :
  _expand_flatten sub (strings row) = Ok row.
Proof.
  unfold strings. induction row as [|t row IH]; [done|].
  cbn [fmap list_fmap]. rewrite flatten_cons.
  cbn [mbind except_bind]. by rewrite IH.
Qed.

Lemma expand_rows_strings `{SpecCapability} sub (rows : list (list string)) :
  expand_rows sub (strings <$> rows) = Ok rows.
Proof.
  induction rows as [|row rows IH]; [done|].
  cbn [fmap list_fmap]. rewrite expand_rows_cons, IH.
  unfold strings at 1. fold (strings row).
  by rewrite flatten_strings.
Qed.

Lemma expanded_rows_flat `{SpecCapability} d (rows : list (list string)) :
  dict_get "matrix" d = Some (YList (strings <$> rows)) ->
  expanded_rows_of d = Ok rows.
Proof.
  intros Hm. unfold expanded_rows_of. rewrite Hm.
  apply expand_rows_strings.
Qed.

(** * Exclusion (C1) *)

(** C1.  A product tuple is discarded exactly when the test spec built
    from its sorted tokens, joined with blanks and parsed (and then put
    through the best-effort variant substitution), satisfies one of the
    parsed exclusions.  For the whole expansion: the result is the list of
    sorted tuples with the excluded ones filtered out, each then given the
    sigil and emitted.  In particular, for a capability under which
    [pkg @2.0] satisfies [pkg@2.0] and [pkg @1.0] does not, the matrix
    [{matrix: [["pkg"], ["@1.0", "@2.0"]], exclude: ["pkg@2.0"]}] expands
    to the single combo [pkg], [@1.0]. *)
Theorem exclusion_iff_satisfies `{SpecCapability} :
  (forall excludes xs sigil specify combo,
     py_iter excludes = YStr <$> xs ->
     combo_step excludes sigil specify combo = Ok None
     <-> exists x,
           x ∈ xs
           /\ satisfies (test_spec_of (sorted spec_ordering_key combo))
                (parse x) = true)
  /\ (forall d rows xs s specify,
        expanded_rows_of d = Ok rows ->
        py_iter (excludes_of d) = YStr <$> xs ->
        sigil_of d = YStr s ->
        _expand_matrix_constraints (YDict d) specify
        = (out ← comprehension (with_sigil s)
                   (List.filter (fun oc => negb (excluded_by xs oc))
                      (sorted spec_ordering_key <$> product rows));
           Ok (emit specify <$> out)))
  /\ (satisfies (test_spec_of ["pkg"; "@1.0"]) (parse "pkg@2.0") = false ->
      satisfies (test_spec_of ["pkg"; "@2.0"]) (parse "pkg@2.0") = true ->
      _expand_matrix_constraints (YDict pkg_matrix) true
      = Ok [[parse "pkg"; parse "@1.0"]]).
Proof.
  split_and!.
  - intros excludes xs sigil specify combo Hxs.
    unfold combo_step. rewrite Hxs, any_satisfies_strings.
    cbn [mbind except_bind].
    destruct (existsb _ xs) eqn:Hany.
    + split; [intros _|done].
      apply existsb_exists in Hany as (x & Hin & Hx).
      exists x. by rewrite list_elem_of_In.
    + split.
      * destruct (if truthy sigil then _ else _); [done|]. done.
      * intros (x & Hin & Hx).
        assert (existsb
                  (fun x => satisfies
                     (test_spec_of (sorted spec_ordering_key combo))
                     (parse x)) xs = true) as Hyes.
        { apply existsb_exists. exists x. by rewrite <- list_elem_of_In. }
        congruence.
  - intros d rows xs s specify Hrows Hxs Hs.
    by apply expand_pipeline.
  - intros Hkeep Hdrop.
    rewrite (expand_pipeline pkg_matrix [["pkg"]; ["@1.0"; "@2.0"]]
               ["pkg@2.0"] "") by done.
    unfold surviving. cbn [product mbind list_bind fmap list_fmap app].
    change (sorted spec_ordering_key ["pkg"; "@1.0"]) with ["pkg"; "@1.0"].
    change (sorted spec_ordering_key ["pkg"; "@2.0"]) with ["pkg"; "@2.0"].
    cbn [List.filter excluded_by existsb].
    by rewrite Hkeep, Hdrop.
Qed.

Lemma exclusion_iff_satisfies_witness :
  (combo_step (H := text_specs) (strings ["pkg@2.0"]) (YStr "") false
     ["pkg"; "@2.0"] = Ok None
   <-> exists x,
         x ∈ ["pkg@2.0"]
         /\ satisfies (SpecCapability := text_specs)
              (test_spec_of (sorted spec_ordering_key ["pkg"; "@2.0"]))
              (parse x) = true)
  /\ _expand_matrix_constraints (H := text_specs) (YDict pkg_matrix) false
     = Ok [["pkg"; "@1.0"]]
  /\ _expand_matrix_constraints (H := text_specs) (YDict pkg_matrix) true
     = Ok [["pkg"; "@1.0"]].
Proof.
  destruct (@exclusion_iff_satisfies text_specs) as (Hstep & Hall & Hpkg).
  split_and!.
  - apply (Hstep (strings ["pkg@2.0"]) ["pkg@2.0"]). reflexivity.
  - rewrite (Hall pkg_matrix [["pkg"]; ["@1.0"; "@2.0"]] ["pkg@2.0"] "");
      reflexivity.
  - apply Hpkg; reflexivity.
Defined.

(** * Token order (C2) *)

Lemma startswith_char c rest a :
  startswith (String c rest) (String a EmptyString) = Ascii.eqb c a.
Proof.
  unfold startswith. cbn [String.prefix].
  destruct (Ascii.ascii_dec a c) as [->|Hne].
  - rewrite Ascii.eqb_refl. by destruct rest.
  - symmetry. apply Ascii.eqb_neq. congruence.
Qed.

Lemma emit_tokens `{SpecCapability} (out : list (list string)) :
  emit false <$> out = out.
Proof. exact (list_fmap_id out). Qed.

Lemma Forall2_source {A B} (P : A -> B -> Prop) l k :
  Forall2 P l k -> Forall (fun y => exists x, x ∈ l /\ P x y) k.
Proof.
  induction 1 as [|x y l k Hxy _ IH]; constructor.
  - exists x. split; [left | done].
  - eapply Forall_impl; [exact IH|]. intros y' (x' & Hin & Hp).
    exists x'. split; [by right | done].
Qed.

(** What comes out of the expander, token lists only: every combo is a
    survivor with the sigil applied. *)
Lemma expand_tokens_inv `{SpecCapability} d rows xs s results :
  expanded_rows_of d = Ok rows ->
  py_iter (excludes_of d) = YStr <$> xs ->
  sigil_of d = YStr s ->
  _expand_matrix_constraints (YDict d) false = Ok results ->
  Forall2 (fun oc combo => with_sigil s oc = Ok combo)
    (surviving xs rows) results.
Proof.
  intros Hrows Hxs Hs. rewrite (expand_pipeline d rows xs s) by done.
  intros (out & Hout & [= <-])%except_bind_ok.
  rewrite emit_tokens. by apply comprehension_ok_Forall2.
Qed.

(** With the sigil [^], [{matrix: [["pkg"], ["@1.0"]]}] emits the combo
    [^pkg], [@1.0], whose keys are 5 and 2. *)
Lemma emitted_combo_not_ascending :
  exists combo,
    _expand_matrix_constraints (H := text_specs) (YDict sigil_matrix) false
    = Ok [combo]
    /\ ~ ascending spec_ordering_key combo.
Proof.
  exists ["^pkg"; "@1.0"]. split; [reflexivity|].
  intros Hasc. inversion Hasc as [|? ? _ Hfirst]; subst.
  inversion Hfirst as [|? ? Hle _]; subst.
  vm_compute in Hle. lia.
Qed.

(** C2 (amended).  The classifier maps a token to 5, 4, 3 for a leading
    [^], [/], [%], to 2 for a leading [~], [-], [+], [@] or a contained
    [=], and to 1 otherwise.  Sorting a tuple by it gives an ascending
    permutation in which tokens of equal key keep their order; the tokens
    [+shared], [^mpi], [gcc-compiler], [%gcc] have keys 2, 5, 1, 3 and sort
    to [gcc-compiler], [+shared], [%gcc], [^mpi].  Every emitted combo is
    such a sorted product tuple with the sigil, if any, put in front of its
    first token afterwards; without a sigil the emitted combos themselves
    are ascending. *)
Theorem combos_sorted_before_sigil `{SpecCapability} :
  (spec_ordering_key "" = 1
   /\ forall c rest,
        spec_ordering_key (String c rest)
        = if Ascii.eqb c "^" then 5
          else if Ascii.eqb c "/" then 4
          else if Ascii.eqb c "%" then 3
          else if existsb (Ascii.eqb c) (list_ascii_of_string "~-+@")
                  || char_in "=" (String c rest) then 2
          else 1)
  /\ (spec_ordering_key <$> ["+shared"; "^mpi"; "gcc-compiler"; "%gcc"]
      = [2; 5; 1; 3]
      /\ sorted spec_ordering_key ["+shared"; "^mpi"; "gcc-compiler"; "%gcc"]
         = ["gcc-compiler"; "+shared"; "%gcc"; "^mpi"])
  /\ (forall tuple : list string,
        ascending spec_ordering_key (sorted spec_ordering_key tuple)
        /\ Permutation (sorted spec_ordering_key tuple) tuple
        /\ forall k,
             List.filter (fun t => spec_ordering_key t =? k)
               (sorted spec_ordering_key tuple)
             = List.filter (fun t => spec_ordering_key t =? k) tuple)
  /\ (forall d rows xs s results,
        expanded_rows_of d = Ok rows ->
        py_iter (excludes_of d) = YStr <$> xs ->
        sigil_of d = YStr s ->
        _expand_matrix_constraints (YDict d) false = Ok results ->
        Forall (fun combo =>
                  exists tuple,
                    tuple ∈ product rows
                    /\ with_sigil s (sorted spec_ordering_key tuple)
                       = Ok combo) results
        /\ (s = "" -> Forall (ascending spec_ordering_key) results)).
Proof.
  split_and!.
  - reflexivity.
  - intros c rest. unfold spec_ordering_key.
    cbn [chars list_ascii_of_string fmap list_fmap existsb].
    by rewrite !startswith_char.
  - reflexivity.
  - reflexivity.
  - intros tuple. split_and!.
    + apply sorted_ascending.
    + apply sorted_perm.
    + intros k. apply sorted_stable.
  - intros d rows xs s results Hrows Hxs Hs Hres.
    pose proof (expand_tokens_inv d rows xs s results Hrows Hxs Hs Hres)
      as Hall.
    split.
    + eapply Forall_impl; [exact (Forall2_source _ _ _ Hall)|].
      intros combo (oc & Hin & Hoc).
      apply surviving_sorted in Hin as (tuple & Hin & -> & _). eauto.
    + intros ->. eapply Forall_impl; [exact (Forall2_source _ _ _ Hall)|].
      intros combo (oc & Hin & [= <-]).
      apply surviving_sorted in Hin as (tuple & _ & -> & _).
      apply sorted_ascending.
Qed.

Lemma combos_sorted_before_sigil_witness :
  Forall (fun combo =>
            exists tuple,
              tuple ∈ product [["pkg"]; ["@1.0"]]
              /\ with_sigil "^" (sorted spec_ordering_key tuple) = Ok combo)
    [["^pkg"; "@1.0"]]
  /\ ("^" = "" -> Forall (ascending spec_ordering_key) [["^pkg"; "@1.0"]]).
Proof.
  destruct (@combos_sorted_before_sigil text_specs) as (_ & _ & _ & Hall).
  apply (Hall sigil_matrix [["pkg"]; ["@1.0"]] [] "^"); reflexivity.
Defined.

(** * Number of combos (C3) *)

Lemma filter_keeps_all {A} (f : A -> bool) l :
  (forall x, f x = true) -> List.filter f l = l.
Proof.
  intros Hf. induction l as [|x l IH]; [done|].
  cbn [List.filter]. by rewrite Hf, IH.
Qed.

Lemma surviving_unfiltered `{SpecCapability} rows :
  surviving [] rows = sorted spec_ordering_key <$> product rows.
Proof. unfold surviving. by apply filter_keeps_all. Qed.

(** Without exclusions every pass of the loop over the product that
    returns appends one combo. *)
Lemma expand_combos_count `{SpecCapability} excludes sigil specify
    combos acc results :
  py_iter excludes = [] ->
  for_each
    (fun results combo =>
       out ← combo_step excludes sigil specify combo;
       Ok (match out with
           | Some c => results ++ [c]
           | None => results
           end))
    combos acc
  = Ok results ->
  length results = length acc + length combos.
Proof.
  intros Hxs. revert acc.
  induction combos as [|combo combos IH]; intros acc Hrun.
  - cbn in Hrun. injection Hrun as <-. cbn. lia.
  - cbn [for_each] in Hrun.
    assert (match combo_step excludes sigil specify combo with
            | Ok None => False
            | _ => True
            end) as Hstep.
    { unfold combo_step. rewrite Hxs. cbn [any_satisfies mbind except_bind].
      by destruct (if truthy sigil then _ else _). }
    destruct (combo_step excludes sigil specify combo) as [[c|]|e];
      cbn [mbind except_bind] in Hrun; [|done..].
    apply IH in Hrun. rewrite length_app in Hrun. cbn [length] in *. lia.
Qed.

(** C3.  For every matrix record whose [exclude] list is empty, the
    number of combos the expander returns is the product of the lengths of
    the expanded rows: whenever the expander returns, the rows have
    expanded and the count is that product.  The expander does return when
    the rows expand without an error and the sigil is a string that is
    empty, or any string if the list of expanded rows is not empty; with
    no expanded row at all and a non-empty sigil it raises [IndexError]
    and returns no combo, and an error of the expansion of the rows is
    the error of the expander. *)
Theorem combo_count_without_excludes `{SpecCapability} d specify :
  py_iter (excludes_of d) = [] ->
  (forall results,
     _expand_matrix_constraints (YDict d) specify = Ok results ->
     exists rows,
       expanded_rows_of d = Ok rows
       /\ length results = rows_product rows)
  /\ (forall rows s,
        expanded_rows_of d = Ok rows ->
        sigil_of d = YStr s ->
        s = "" \/ rows <> [] ->
        exists results,
          _expand_matrix_constraints (YDict d) specify = Ok results
          /\ length results = rows_product rows)
  /\ (forall s,
        expanded_rows_of d = Ok [] ->
        sigil_of d = YStr s ->
        s <> "" ->
        _expand_matrix_constraints (YDict d) specify = Raise IndexError)
  /\ (forall e,
        expanded_rows_of d = Raise e ->
        _expand_matrix_constraints (YDict d) specify = Raise e).
Proof.
  intros Hxs.
  assert (Hcount : forall results,
            _expand_matrix_constraints (YDict d) specify = Ok results ->
            exists rows,
              expanded_rows_of d = Ok rows
              /\ length results = rows_product rows).
  { intros results. rewrite expand_unfold.
    destruct (expanded_rows_of d) as [rows|e]; [|done].
    cbn [mbind except_bind]. unfold expand_combos. intros Hrun.
    exists rows. split; [done|].
    apply expand_combos_count in Hrun; [|done].
    by rewrite product_length in Hrun. }
  split_and!; [exact Hcount| | |].
  - intros rows s Hrows Hs Hsafe.
    assert (exists results,
              _expand_matrix_constraints (YDict d) specify = Ok results)
      as [results Hres].
    { rewrite (expand_pipeline d rows [] s) by done.
      rewrite surviving_unfiltered.
      assert (exists out,
                comprehension (with_sigil s)
                  (sorted spec_ordering_key <$> product rows) = Ok out)
        as [out Hout].
      { destruct Hsafe as [->|Hne].
        - exists (sorted spec_ordering_key <$> product rows).
          rewrite <- (list_fmap_id (_ <$> _)) at 2.
          apply comprehension_ok_fmap, Forall_forall. done.
        - eexists. apply comprehension_ok_fmap.
          eapply Forall_impl;
            [rewrite <- surviving_unfiltered; by apply surviving_nonempty|].
          intros oc Hoc. by apply with_sigil_nonempty. }
      rewrite Hout. cbn [mbind except_bind]. by eexists. }
    exists results. split; [done|].
    destruct (Hcount results Hres) as (rows' & Hrows' & Hlen).
    rewrite Hrows in Hrows'. by injection Hrows' as <-.
  - intros s Hrows Hs Hsigil.
    rewrite (expand_pipeline d [] [] s) by done.
    rewrite surviving_unfiltered. cbn. unfold with_sigil.
    by destruct (String.eqb_spec s "").
  - intros e Hrows. by rewrite expand_unfold, Hrows.
Qed.

Lemma combo_count_without_excludes_witness :
  (exists rows,
     expanded_rows_of (H := text_specs) sigil_matrix = Ok rows
     /\ length [["^pkg"; "@1.0"]] = rows_product rows)
  /\ (exists results,
        _expand_matrix_constraints (H := text_specs) (YDict sigil_matrix) true
        = Ok results
        /\ length results = rows_product [["pkg"]; ["@1.0"]])
  /\ _expand_matrix_constraints (H := text_specs)
       (YDict (rowless_matrix "^")) true
     = Raise IndexError
  /\ _expand_matrix_constraints (H := text_specs)
       (YDict [("matrix", YList [YList [YDict (rowless_matrix "^")]])]) true
     = Raise IndexError.
Proof.
  destruct (@combo_count_without_excludes text_specs sigil_matrix true
              eq_refl) as (Hcount & Hreturns & _).
  destruct (@combo_count_without_excludes text_specs (rowless_matrix "^")
              true eq_refl) as (_ & _ & Hraises & _).
  destruct (@combo_count_without_excludes text_specs
              [("matrix", YList [YList [YDict (rowless_matrix "^")]])]
              true eq_refl) as (_ & _ & _ & Hrows).
  split_and!.
  - apply (Hcount [["^pkg"; "@1.0"]]). reflexivity.
  - apply (Hreturns [["pkg"]; ["@1.0"]] "^"); try reflexivity.
    right. discriminate.
  - apply (Hraises "^"); [reflexivity..|discriminate].
  - apply Hrows. reflexivity.
Defined.

(** * Sub-matrices (C4) *)

(** C4.  A sub-matrix inside a row is expanded on its own, and each of its
    combos is joined with single blanks into one string that takes the
    sub-matrix's place in the flattened row; the flattened row is one of
    the rows of the outer product.  (A sub-matrix that is itself a row
    gives one single-entry row per joined combo.)  Every emitted combo is,
    the sigil in front of its first token apart, a reordering of one
    product tuple whose tokens are whole entries of the expanded rows, so
    the tokens inside a joined string are never moved by the outer sort.
    For [{matrix: [["zlib", {matrix: [["+shared"], ["^mpi"]]}], ["%gcc"]]}]
    the combos are [zlib], [%gcc] and [+shared ^mpi], [%gcc]. *)
Theorem submatrix_joined_into_one_token `{SpecCapability} :
  (forall before sub after,
     _expand_flatten expand_cell (YList (before ++ YDict sub :: after))
     = (a ← _expand_flatten expand_cell (YList before);
        rs ← _expand_matrix_constraints (YDict sub) false;
        b ← _expand_flatten expand_cell (YList after);
        Ok (a ++ (join " " <$> rs) ++ b)))
  /\ (forall d above cells below,
        dict_get "matrix" d = Some (YList (above ++ YList cells :: below)) ->
        expanded_rows_of d
        = (a ← expand_rows expand_cell above;
           r ← _expand_flatten expand_cell (YList cells);
           b ← expand_rows expand_cell below;
           Ok (a ++ [r] ++ b)))
  /\ (forall d above sub below,
        dict_get "matrix" d = Some (YList (above ++ YDict sub :: below)) ->
        expanded_rows_of d
        = (a ← expand_rows expand_cell above;
           rs ← _expand_matrix_constraints (YDict sub) false;
           b ← expand_rows expand_cell below;
           Ok (a ++ ((fun r => [join " " r]) <$> rs) ++ b)))
  /\ (forall d rows xs s results,
        expanded_rows_of d = Ok rows ->
        py_iter (excludes_of d) = YStr <$> xs ->
        sigil_of d = YStr s ->
        _expand_matrix_constraints (YDict d) false = Ok results ->
        Forall (fun combo =>
                  exists tuple oc,
                    Forall2 (fun token row => token ∈ row) tuple rows
                    /\ Permutation oc tuple
                    /\ with_sigil s oc = Ok combo) results)
  /\ _expand_matrix_constraints (YDict nested_matrix) false
     = Ok [["zlib"; "%gcc"]; ["+shared ^mpi"; "%gcc"]].
Proof.
  split_and!.
  - intros before sub after.
    rewrite flatten_app, flatten_cons. unfold expand_cell at 2.
    destruct (_expand_flatten expand_cell (YList before)) as [a|]; [|done].
    cbn [mbind except_bind].
    destruct (_expand_matrix_constraints (YDict sub) false) as [rs|]; [|done].
    cbn [mbind except_bind].
    by destruct (_expand_flatten expand_cell (YList after)).
  - intros d above cells below Hm. unfold expanded_rows_of. rewrite Hm.
    cbn [rows_of]. fold expand_cell.
    rewrite expand_rows_app, expand_rows_cons.
    destruct (expand_rows expand_cell above) as [a|]; [|done].
    cbn [mbind except_bind].
    destruct (_expand_flatten expand_cell (YList cells)) as [r|]; [|done].
    cbn [mbind except_bind].
    by destruct (expand_rows expand_cell below).
  - intros d above sub below Hm. unfold expanded_rows_of. rewrite Hm.
    cbn [rows_of]. fold expand_cell.
    rewrite expand_rows_app, expand_rows_cons, flatten_cons.
    change (expand_cell (YDict sub))
      with (_expand_matrix_constraints (YDict sub) false).
    destruct (expand_rows expand_cell above) as [a|]; [|done].
    cbn [mbind except_bind].
    destruct (_expand_matrix_constraints (YDict sub) false) as [rs|]; [|done].
    cbn [mbind except_bind _expand_flatten]. rewrite app_nil_r, map_map.
    by destruct (expand_rows expand_cell below).
  - intros d rows xs s results Hrows Hxs Hs Hres.
    eapply Forall_impl;
      [exact (Forall2_source _ _ _
                (expand_tokens_inv d rows xs s results Hrows Hxs Hs Hres))|].
    intros combo (oc & Hin & Hoc).
    apply surviving_sorted in Hin as (tuple & Hin & -> & _).
    exists tuple, (sorted spec_ordering_key tuple). split_and!; [|..|done].
    + by apply product_tuples.
    + apply sorted_perm.
  - reflexivity.
Qed.

Lemma submatrix_joined_into_one_token_witness :
  expanded_rows_of (H := text_specs) nested_matrix
  = Ok [["zlib"; "+shared ^mpi"]; ["%gcc"]]
  /\ Forall (fun combo =>
               exists tuple oc,
                 Forall2 (fun token row => token ∈ row) tuple
                   [["zlib"; "+shared ^mpi"]; ["%gcc"]]
                 /\ Permutation oc tuple
                 /\ with_sigil "" oc = Ok combo)
       [["zlib"; "%gcc"]; ["+shared ^mpi"; "%gcc"]].
Proof.
  destruct (@submatrix_joined_into_one_token text_specs)
    as (_ & Hrows & _ & Hall & _).
  split.
  - rewrite (Hrows nested_matrix []
               [YStr "zlib";
                YDict [("matrix",
                        YList [strings ["+shared"]; strings ["^mpi"]])]]
               [strings ["%gcc"]]); reflexivity.
  - apply (Hall nested_matrix [["zlib"; "+shared ^mpi"]; ["%gcc"]] [] "");
      reflexivity.
Defined.

(** * Sigil placement (C5) *)

Lemma sigil_on_survivors `{SpecCapability} s ocs :
  s <> "" ->
  comprehension (with_sigil s) ocs
  = if forallb has_first ocs then Ok (sigil_on_first s <$> ocs)
    else Raise IndexError.
Proof.
  intros Hsigil%String.eqb_neq.
  induction ocs as [|oc ocs IH]; [done|].
  cbn [comprehension forallb fmap list_fmap]. rewrite IH.
  unfold with_sigil. rewrite Hsigil.
  destruct oc as [|first rest]; [done|]. cbn [has_first andb].
  by destruct (forallb has_first ocs).
Qed.

(** C5.  For every matrix record with a non-empty sigil, what the expander
    returns is the list of the combos that survive the exclusions, in
    order, each with the sigil in front of its first token and its other
    tokens unchanged; a discarded combo is not in the list and gets no
    sigil.  Every surviving combo has a first token when the list of
    expanded rows is not empty; a surviving combo without one makes the
    expander raise [IndexError] instead of returning. *)
Theorem sigil_on_first_token_only `{SpecCapability} d rows xs s specify :
  expanded_rows_of d = Ok rows ->
  py_iter (excludes_of d) = YStr <$> xs ->
  sigil_of d = YStr s ->
  s <> "" ->
  _expand_matrix_constraints (YDict d) specify
  = (if forallb has_first (surviving xs rows)
     then Ok (emit specify <$> (sigil_on_first s <$> surviving xs rows))
     else Raise IndexError)
  /\ (rows <> [] -> forallb has_first (surviving xs rows) = true).
Proof.
  intros Hrows Hxs Hs Hsigil. split.
  - rewrite (expand_pipeline d rows xs s) by done.
    rewrite sigil_on_survivors by done.
    by destruct (forallb has_first (surviving xs rows)).
  - intros Hne. apply forallb_forall. intros oc Hin%list_elem_of_In.
    pose proof (surviving_nonempty xs rows Hne) as Hall.
    rewrite Forall_forall in Hall. specialize (Hall oc Hin).
    by destruct oc.
Qed.

Lemma sigil_on_first_token_only_witness :
  _expand_matrix_constraints (H := text_specs) (YDict sigil_matrix) false
  = Ok [["^pkg"; "@1.0"]]
  /\ ([["pkg"]; ["@1.0"]] <> [] ->
      forallb has_first (surviving (H := text_specs) [] [["pkg"]; ["@1.0"]])
      = true).
Proof.
  apply (@sigil_on_first_token_only text_specs sigil_matrix
           [["pkg"]; ["@1.0"]] [] "^" false); try reflexivity.
  discriminate.
Defined.

(** * The index of the sigil step (C10) *)

(** The [matrix] list of [{matrix: [{matrix: [[]]}], sigil: "^"}] has one
    entry, yet the sigil step is out of bounds: the entry is a sub-matrix
    without combos, which leaves the outer product without rows. *)
Lemma nonempty_matrix_index_error :
  (exists row, dict_get "matrix" hollow_matrix = Some (YList [row]))
  /\ _expand_matrix_constraints (H := text_specs) (YDict hollow_matrix) true
     = Raise IndexError.
Proof. split; [by eexists | reflexivity]. Qed.

(** C10 (amended).  The sigil step indexes the first token of the sorted
    combo.  The index is in bounds, and the expander returns, whenever the
    list of expanded rows is not empty; that is the case for a non-empty
    [matrix] list none of whose rows is itself a matrix record.  For an
    empty [matrix] list and a non-empty sigil the product has the single
    empty combo: unless an exclusion discards it, the index is out of
    bounds and the expansion raises [IndexError]; if an exclusion discards
    it, the expansion returns no combo. *)
Theorem sigil_index_bounds `{SpecCapability} :
  (forall d rows xs s specify,
     expanded_rows_of d = Ok rows ->
     py_iter (excludes_of d) = YStr <$> xs ->
     sigil_of d = YStr s ->
     rows <> [] ->
     exists results, _expand_matrix_constraints (YDict d) specify = Ok results)
  /\ (forall d ms rows,
        dict_get "matrix" d = Some (YList ms) ->
        ms <> [] ->
        Forall (fun row => forall e, row <> YDict e) ms ->
        expanded_rows_of d = Ok rows ->
        rows <> [])
  /\ (forall d xs s specify,
        dict_get "matrix" d = Some (YList []) ->
        py_iter (excludes_of d) = YStr <$> xs ->
        sigil_of d = YStr s ->
        s <> "" ->
        _expand_matrix_constraints (YDict d) specify
        = if excluded_by xs [] then Ok [] else Raise IndexError).
Proof.
  split_and!.
  - intros d rows xs s specify Hrows Hxs Hs Hne.
    rewrite (expand_pipeline d rows xs s) by done.
    erewrite comprehension_ok_fmap; [by eexists|].
    eapply Forall_impl; [by apply surviving_nonempty|].
    intros oc Hoc. by apply with_sigil_nonempty.
  - intros d ms rows Hm Hne Hms. unfold expanded_rows_of. rewrite Hm.
    cbn [rows_of]. intros Hrows%expand_rows_length; [|done].
    intros ->. by destruct ms.
  - intros d xs s specify Hm Hxs Hs Hsigil.
    assert (expanded_rows_of d = Ok []) as Hrows.
    { unfold expanded_rows_of. by rewrite Hm. }
    rewrite (expand_pipeline d [] xs s) by done.
    unfold surviving. cbn [product fmap list_fmap List.filter].
    change (sorted spec_ordering_key []) with (@nil string).
    destruct (excluded_by xs []); [done|].
    cbn [negb comprehension with_sigil].
    apply String.eqb_neq in Hsigil. unfold with_sigil. by rewrite Hsigil.
Qed.

Lemma sigil_index_bounds_witness :
  (exists results,
     _expand_matrix_constraints (H := text_specs) (YDict sigil_matrix) true
     = Ok results)
  /\ [["pkg"]; ["@1.0"]] <> []
  /\ _expand_matrix_constraints (H := text_specs)
       (YDict (rowless_matrix "^")) true
     = Raise IndexError.
Proof.
  destruct (@sigil_index_bounds text_specs) as (Hin & Hrows & Hout).
  split_and!.
  - apply (Hin sigil_matrix [["pkg"]; ["@1.0"]] [] "^"); try reflexivity.
    discriminate.
  - apply (Hrows sigil_matrix [strings ["pkg"]; strings ["@1.0"]]);
      try reflexivity; [discriminate|].
    repeat constructor; discriminate.
  - apply (Hout (rowless_matrix "^") [] "^"); try reflexivity.
    discriminate.
Defined.

(** * Running container operations *)

Section StoreFacts.
Context `{SpecCapability}.

Lemma bind_run {A B} (m : M A) (f : A -> M B) h a h' :
  m h = (Ok a, h') -> (m ≫= f) h = f a h'.
Proof. intros Hm. unfold mbind, M_bind. by rewrite Hm. Qed.

Lemma get_object_run h self c :
  objects h !! self = Some c -> get_object self h = (Ok c, h).
Proof. intros Hc. unfold get_object. by rewrite Hc. Qed.

Lemma update_object_run h self c f :
  objects h !! self = Some c ->
  update_object self f h
  = (Ok tt, mkHeap (<[self := f c]> (objects h)) (dicts h)).
Proof. intros Hc. unfold update_object. by rewrite Hc. Qed.

(** A second update of the same object replaces the first. *)
Lemma update_object_again os ds self c f :
  update_object self f (mkHeap (<[self := c]> os) ds)
  = (Ok tt, mkHeap (<[self := f c]> os) ds).
Proof.
  unfold update_object. cbn [objects dicts].
  by rewrite lookup_insert_eq, insert_insert_eq.
Qed.

End StoreFacts.

(** One statement of a method body: an assignment to a field of [self], or
    a read of an object that is in the store. *)
Ltac run_statement :=
  first
    [ erewrite bind_run by apply update_object_again
    | erewrite bind_run by (by apply update_object_run)
    | erewrite bind_run by (by apply get_object_run) ].

Section MethodFacts.
Context `{SpecCapability}.

Lemma add_run h self c spec :
  objects h !! self = Some c ->
  add self spec h
  = (Ok tt,
     mkHeap
       (<[self := mkSpecList (name c) (_reference c)
                    (yaml_list c ++ [YStr (str spec)])
                    ((fun l => l ++ [VStr (str spec)]) <$> _expanded_list c)
                    None None]> (objects h))
       (dicts h)).
Proof.
  intros Hc. unfold add. do 3 run_statement.
  rewrite update_object_again. by destruct c as [? ? ? [l|] ? ?].
Qed.

Lemma extend_run h self c other o copy_reference :
  objects h !! self = Some c ->
  objects h !! other = Some o ->
  extend self other copy_reference h
  = (Ok tt,
     mkHeap
       (<[self := mkSpecList (name c)
                    (if copy_reference then _reference o else _reference c)
                    (yaml_list c ++ yaml_list o) None None None]>
          (objects h))
       (dicts h)).
Proof.
  intros Hc Ho. unfold extend.
  erewrite bind_run by (by apply get_object_run).
  erewrite bind_run by (by apply update_object_run).
  do 3 run_statement.
  destruct copy_reference; [|done].
  destruct (decide (other = self)) as [->|Hne].
  - assert (o = c) as -> by congruence.
    erewrite bind_run
      by (apply get_object_run; cbn [objects]; apply lookup_insert_eq).
    by rewrite update_object_again.
  - erewrite bind_run
      by (apply get_object_run; cbn [objects];
          rewrite lookup_insert_ne by done; exact Ho).
    by rewrite update_object_again.
Qed.

Lemma update_reference_run h self c reference :
  objects h !! self = Some c ->
  update_reference self reference h
  = (Ok tt,
     mkHeap
       (<[self := mkSpecList (name c) reference (yaml_list c)
                    None None None]> (objects h))
       (dicts h)).
Proof.
  intros Hc. unfold update_reference. do 3 run_statement.
  by rewrite update_object_again.
Qed.

(** ** The entries [remove] selects *)

Lemma removal_candidates_cons spec y l :
  removal_candidates spec (y :: l)
  = match y with
    | YStr s => if is_candidate spec y then s :: removal_candidates spec l
                else removal_candidates spec l
    | _ => removal_candidates spec l
    end.
Proof.
  unfold removal_candidates.
  destruct y as [s| |]; cbn [mbind list_bind is_candidate]; [|done..].
  destruct (negb (startswith s "$") && Spec_eqb (parse s) (as_spec spec));
    reflexivity.
Qed.

Lemma removal_candidates_filter spec l :
  YStr <$> removal_candidates spec l = List.filter (is_candidate spec) l.
Proof.
  induction l as [|y l IH]; [done|].
  rewrite removal_candidates_cons. cbn [List.filter].
  destruct y as [s| |]; [|done..].
  destruct (is_candidate spec (YStr s)); [|done].
  cbn [fmap list_fmap]. f_equal. exact IH.
Qed.

Lemma no_candidate spec l j y :
  removal_candidates spec l = [] ->
  l !! j = Some y -> is_candidate spec y = false.
Proof.
  intros Hnone Hj. destruct (is_candidate spec y) eqn:Hy; [|done].
  assert (In y (List.filter (is_candidate spec) l)) as Hin.
  { apply filter_In. split; [|done].
    apply list_elem_of_In, list_elem_of_lookup. eauto. }
  rewrite <- removal_candidates_filter, Hnone in Hin. destruct Hin.
Qed.

(** With exactly one candidate, [list.remove] drops that entry. *)
Lemma unique_candidate spec l s :
  removal_candidates spec l = [s] ->
  exists i,
    l !! i = Some (YStr s)
    /\ (forall j y, l !! j = Some y -> is_candidate spec y = true -> j = i)
    /\ list_remove s l = Some (delete i l).
Proof.
  induction l as [|y l IH]; [done|].
  rewrite removal_candidates_cons.
  destruct (is_candidate spec y) eqn:Hy.
  - destruct y as [t| |]; [|done..]. intros [= -> Hrest]. exists 0.
    split_and!; [done| |].
    + intros [|j] y Hj Hcand; [done|]. cbn in Hj.
      by rewrite (no_candidate spec l j y Hrest Hj) in Hcand.
    + cbn [list_remove]. by rewrite String.eqb_refl.
  - intros Hone.
    assert (removal_candidates spec l = [s]) as Hl
      by (by destruct y).
    destruct (IH Hl) as (i & Hi & Huniq & Hrem). exists (S i).
    split_and!; [done| |].
    + intros [|j] y' Hj Hcand.
      * injection Hj as <-. congruence.
      * f_equal. by apply (Huniq j y').
    + assert (is_candidate spec (YStr s) = true) as Hs.
      { assert (In (YStr s) (List.filter (is_candidate spec) l)) as Hin.
        { rewrite <- removal_candidates_filter, Hl. by left. }
        by apply filter_In in Hin as [_ ?]. }
      cbn [list_remove]. rewrite Hrem.
      destruct y as [t| |]; [|done..].
      destruct (String.eqb_spec t s) as [->|Hne]; [congruence | done].
Qed.
(** Without a candidate nothing is filtered out. *)
Lemma keep_non_candidates spec l :
  removal_candidates spec l = [] ->
  List.filter (fun entry => negb (is_candidate spec entry)) l = l.
Proof.
  induction l as [|y l IH]; [done|].
  rewrite removal_candidates_cons. cbn [List.filter].
  destruct (is_candidate spec y) eqn:Hy.
  - by destruct y.
  - intros Hnone. cbn [negb]. f_equal. apply IH.
    by destruct y.
Qed.

(** With exactly one candidate, [list.remove] drops that entry and keeps
    every other one, in order. *)
Lemma list_remove_candidate spec l s :
  removal_candidates spec l = [s] ->
  list_remove s l
  = Some (List.filter (fun entry => negb (is_candidate spec entry)) l).
Proof.
  intros Hone.
  assert (is_candidate spec (YStr s) = true) as Hs.
  { assert (In (YStr s) (List.filter (is_candidate spec) l)) as Hin.
    { rewrite <- removal_candidates_filter, Hone. by left. }
    by apply filter_In in Hin as [_ Hin]. }
  revert Hone. induction l as [|y l IH]; [done|].
  rewrite removal_candidates_cons. cbn [List.filter list_remove].
  destruct (is_candidate spec y) eqn:Hy.
  - destruct y as [t| |]; [|done..]. intros [= -> Hrest].
    rewrite String.eqb_refl. cbn [negb]. by rewrite keep_non_candidates.
  - intros Hrest. cbn [negb].
    assert (list_remove s l
            = Some (List.filter
                      (fun entry => negb (is_candidate spec entry)) l))
      as Htail by (apply IH; by destruct y).
    destruct y as [t| |]; [|by rewrite Htail..].
    destruct (String.eqb_spec t s) as [->|_]; [congruence|].
    by rewrite Htail.
Qed.

End MethodFacts.

Section RemoveFacts.
Context `{SpecCapability}.

(** The three ways [remove] ends, by the number of candidates. *)
Lemma remove_outcome h self c spec :
  objects h !! self = Some c ->
  remove self spec h
  = match removal_candidates spec (yaml_list c) with
    | [] => (Raise (SpecListError (removal_message (str spec) (name c))), h)
    | [s] =>
        match list_remove s (yaml_list c) with
        | Some l =>
            (Ok tt,
             mkHeap
               (<[self := mkSpecList (name c) (_reference c) l
                            None None None]> (objects h))
               (dicts h))
        | None => (Raise (ValueError "list.remove(x): x not in list"), h)
        end
    | _ :: _ :: _ => (Raise AssertionError, h)
    end.
Proof.
  intros Hc. unfold remove. run_statement.
  destruct (removal_candidates spec (yaml_list c)) as [|s [|s' rest]];
    [done| |done].
  cbn [length bool_decide decide_rel]. rewrite bool_decide_eq_true_2 by done.
  destruct (list_remove s (yaml_list c)) as [l|]; [|done].
  erewrite bind_run by (by apply update_object_run).
  do 2 run_statement.
  by rewrite update_object_again.
Qed.
End RemoveFacts.

(** * Reference expansion (C6) *)

Section ResolverFacts.
Context `{SpecCapability}.

Lemma for_each_app {A B} (body : B -> A -> M B) xs ys acc h :
  for_each body (xs ++ ys) acc h
  = match for_each body xs acc h with
    | (Ok acc', h') => for_each body ys acc' h'
    | (Raise e, h') => (Raise e, h')
    end.
Proof.
  revert acc h. induction xs as [|x xs IH]; intros acc h; [done|].
  cbn [app for_each]. unfold mbind, M_bind.
  destruct (body acc x h) as [[acc'|e] h']; [apply IH | done].
Qed.

(** The loop body only ever appends to [ret]. *)
Lemma expand_item_appends self view_of recurse ret item h :
  expand_item self view_of recurse ret item h
  = match expand_item self view_of recurse [] item h with
    | (Ok new, h') => (Ok (ret ++ new), h')
    | (Raise e, h') => (Raise e, h')
    end.
Proof.
  unfold expand_item.
  assert (forall (m : M val),
            (m ≫= fun v => mret (ret ++ [v])) h
            = match (m ≫= fun v => mret ([] ++ [v])) h with
              | (Ok new, h') => (Ok (ret ++ new), h')
              | (Raise e, h') => (Raise e, h')
              end) as Hrec.
  { intros m. unfold mbind, M_bind. by destruct (m h) as [[v|e] h']. }
  destruct item as [s|items|d]; [|apply Hrec..].
  destruct (startswith s "$"); [|done].
  unfold mbind, M_bind.
  destruct (_parse_reference self s h) as [[[name sigil]|e] h1]; [|done].
  destruct (get_object self h1) as [[c|e] h2]; [|done].
  destruct (_reference c !! name) as [target|]; [|done].
  destruct (view_of target h2) as [[view|e] h3]; [|done].
  by destruct (comprehension (M := M) _ view h3) as [[referent|e] h4].
Qed.

Lemma for_each_appends self view_of recurse items ret h :
  for_each (expand_item self view_of recurse) items ret h
  = match for_each (expand_item self view_of recurse) items [] h with
    | (Ok new, h') => (Ok (ret ++ new), h')
    | (Raise e, h') => (Raise e, h')
    end.
Proof.
  revert ret h. induction items as [|item items IH]; intros ret h.
  - cbn. by rewrite app_nil_r.
  - cbn [for_each]. unfold mbind, M_bind.
    rewrite (expand_item_appends _ _ _ ret).
    destruct (expand_item self view_of recurse [] item h)
      as [[new|e] h1]; [|done].
    rewrite (IH (ret ++ new)), (IH new).
    destruct (for_each (M := M) _ items [] h1) as [[more|e] h2]; [|done].
    by rewrite app_assoc.
Qed.

(** What is left of a list expansion once the result is known. *)
Lemma expand_list_inv depth self items h r h' :
  _expand_references (S depth) self (YList items) h = (Ok (VList r), h') ->
  for_each
    (expand_item self (specs_as_yaml_list depth)
       (_expand_references depth self)) items [] h
  = (Ok r, h').
Proof.
  cbn [_expand_references]. unfold mbind, M_bind.
  destruct (for_each (M := M) _ items [] h) as [[ret|e] h1]; [|done].
  by intros [= <- <-].
Qed.

Lemma parse_reference_run h self c n target sigil :
  objects h !! self = Some c ->
  _reference c !! n = Some target ->
  sigil ∈ [""; "^"; "%"] ->
  startswith n "^" = false ->
  startswith n "%" = false ->
  _parse_reference self ("$" +:+ sigil +:+ n) h = (Ok (n, sigil), h).
Proof.
  intros Hc Hn Hsigil Hcaret Hpercent. unfold _parse_reference.
  erewrite bind_run by (by apply get_object_run).
  assert (sigil = "" \/ sigil = "^" \/ sigil = "%") as Hcases.
  { repeat (apply elem_of_cons in Hsigil as [Heq|Hsigil]; [tauto|]).
    by apply elem_of_nil in Hsigil. }
  destruct Hcases as [Heq|[Heq|Heq]]; subst sigil.
  - change (tail ("$" +:+ "" +:+ n)) with n.
    rewrite Hcaret, Hpercent. cbn. by rewrite Hn.
  - change (tail ("$" +:+ "^" +:+ n)) with (String "^" n).
    rewrite !startswith_char. cbn. by rewrite Hn.
  - change (tail ("$" +:+ "%" +:+ n)) with (String "%" n).
    rewrite !startswith_char. cbn. by rewrite Hn.
Qed.

Lemma sigilify_strings sigil xs h :
  comprehension (fun spec => _sigilify spec sigil) (VStr <$> xs) h
  = (Ok ((fun x => VStr (sigil +:+ x)) <$> xs), h).
Proof.
  induction xs as [|x xs IH]; [done|].
  cbn [fmap list_fmap comprehension].
  erewrite bind_run by reflexivity.
  erewrite bind_run by exact IH.
  done.
Qed.

(** The loop body at a reference whose referent has a view of strings. *)
Lemma expand_item_reference depth self c n target sigil xs h h' ret :
  objects h !! self = Some c ->
  _reference c !! n = Some target ->
  sigil ∈ [""; "^"; "%"] ->
  startswith n "^" = false ->
  startswith n "%" = false ->
  specs_as_yaml_list depth target h = (Ok (VStr <$> xs), h') ->
  expand_item self (specs_as_yaml_list depth)
    (_expand_references depth self) ret (YStr ("$" +:+ sigil +:+ n)) h
  = (Ok (ret ++ ((fun x => VStr (sigil +:+ x)) <$> xs)), h').
Proof.
  intros Hc Hn Hsigil Hcaret Hpercent Hview. unfold expand_item.
  assert (startswith ("$" +:+ sigil +:+ n) "$" = true) as ->
    by apply (startswith_char "$" (sigil +:+ n) "$").
  erewrite bind_run by (by eapply parse_reference_run).
  cbn beta iota.
  erewrite bind_run by (by apply get_object_run).
  rewrite Hn.
  erewrite bind_run by exact Hview.
  erewrite bind_run by apply sigilify_strings.
  done.
Qed.
End ResolverFacts.

(** C6.  When the reference map of a container binds a name to a
    container whose expanded view is a list of strings, the raw entry [$]
    followed by the name is replaced, at its place in the list, by those
    strings unchanged, and the entry [$^] (or [$%]) followed by the name by
    those strings with [^] (or [%]) in front of each.  For an element that
    is a dict, a non-empty sigil is stored under the key [sigil] of that
    dict object instead, and the same object is returned.  With [B]
    holding [x] and [y], the view of a container holding [$B] is [x], [y]
    and that of one holding [$^B] is [^x], [^y]. *)
Theorem reference_splices_referent `{SpecCapability} :
  (forall depth self c n target sigil xs before after r1 r2 h h1 h2 h3,
     sigil ∈ [""; "^"; "%"] ->
     startswith n "^" = false ->
     startswith n "%" = false ->
     _expand_references (S depth) self (YList before) h
     = (Ok (VList r1), h1) ->
     objects h1 !! self = Some c ->
     _reference c !! n = Some target ->
     specs_as_yaml_list depth target h1 = (Ok (VStr <$> xs), h2) ->
     _expand_references (S depth) self (YList after) h2
     = (Ok (VList r2), h3) ->
     let view := r1 ++ ((fun x => VStr (sigil +:+ x)) <$> xs) ++ r2 in
     _expand_references (S depth) self
       (YList (before ++ YStr ("$" +:+ sigil +:+ n) :: after)) h
     = (Ok (VList view), h3)
     /\ (forall c0 c3,
           objects h !! self = Some c0 ->
           _expanded_list c0 = None ->
           yaml_list c0 = before ++ YStr ("$" +:+ sigil +:+ n) :: after ->
           objects h3 !! self = Some c3 ->
           specs_as_yaml_list (S (S depth)) self h
           = (Ok view,
              mkHeap (<[self := set_expanded_list (Some view) c3]> (objects h3))
                     (dicts h3))))
  /\ (forall o d sigil h,
        dicts h !! o = Some d ->
        sigil <> "" ->
        _sigilify (VDict o) sigil h
        = (Ok (VDict o),
           mkHeap (objects h)
                  (<[o := <["sigil" := VStr sigil]> d]> (dicts h))))
  /\ (reference_demo "$B" empty_heap).1 = Ok [VStr "x"; VStr "y"]
  /\ (reference_demo "$^B" empty_heap).1 = Ok [VStr "^x"; VStr "^y"].
Proof.
  split_and!; [| |by vm_compute..].
  - intros depth self c n target sigil xs before after r1 r2 h h1 h2 h3
      Hsigil Hcaret Hpercent Hbefore Hc Hn Hview Hafter.
    apply expand_list_inv in Hbefore, Hafter.
    assert (_expand_references (S depth) self
              (YList (before ++ YStr ("$" +:+ sigil +:+ n) :: after)) h
            = (Ok (VList (r1 ++ ((fun x => VStr (sigil +:+ x)) <$> xs) ++ r2)),
               h3)) as Hwhole.
    { cbn [_expand_references].
      erewrite bind_run; [done|].
      rewrite for_each_app, Hbefore. cbn [for_each].
      erewrite bind_run by (by eapply expand_item_reference).
      rewrite for_each_appends, Hafter. by rewrite <- app_assoc. }
    split; [exact Hwhole|].
    intros c0 c3 Hc0 Hstale Hraw Hc3.
    change (specs_as_yaml_list (S (S depth)) self)
      with (c' ← get_object self;
            match _expanded_list c' with
            | None =>
                v ← _expand_references (S depth) self (YList (yaml_list c'));
                match v with
                | VList l =>
                    update_object self (set_expanded_list (Some l));; mret l
                | _ => raise TypeError
                end
            | Some l => mret l
            end).
    erewrite bind_run by (by apply get_object_run).
    cbn beta. rewrite Hstale, Hraw.
    erewrite bind_run by exact Hwhole.
    cbn beta iota.
    erewrite bind_run by (by apply update_object_run).
    done.
  - intros o d sigil h Hd Hsigil. unfold _sigilify.
    apply String.eqb_neq in Hsigil. rewrite Hsigil. cbn [negb].
    erewrite bind_run; [done|]. unfold dict_setitem. by rewrite Hd.
Qed.

Lemma reference_splices_referent_witness :
  _expand_references (H := text_specs) 2 2%positive
    (YList ([YStr "a"] ++ YStr ("$" +:+ "^" +:+ "B") :: [YStr "b "]))
    demo_heap
  = (Ok (VList ([VStr "a"]
                ++ ((fun x => VStr ("^" +:+ x)) <$> ["x"; "y"])
                ++ [VStr "b "])),
     demo_heap)
  /\ _sigilify (H := text_specs) (VDict 1%positive) "^" demo_heap
     = (Ok (VDict 1%positive),
        mkHeap (objects demo_heap)
          (<[1%positive :=
               <["sigil" := VStr "^"]>
                 {[ "matrix" :=
                      VList [VList [VStr "pkg"];
                             VList [VStr "@1.0"; VStr "@2.0"]];
                    "exclude" := VList [VStr "pkg@2.0"] ]}]>
             (dicts demo_heap))).
Proof.
  destruct (@reference_splices_referent text_specs) as (Hsplice & Hdict & _).
  split.
  - apply (Hsplice 1 2%positive demo_A "B" 1%positive "^" ["x"; "y"]
             [YStr "a"] [YStr "b "] [VStr "a"] [VStr "b "]
             demo_heap demo_heap demo_heap demo_heap); try reflexivity.
    apply list_elem_of_further, list_elem_of_here.
  - apply Hdict; [reflexivity | discriminate].
Defined.

(** * Cache invalidation (C7) *)

(** C7.  Each of [add], [remove], [extend] and [update_reference], when it
    changes the container, leaves the constraints cache and the specs cache
    stale.  [add] appends the string of its argument to the raw list and,
    if the expanded-list cache is populated, to that cache as well, which
    stays populated; [remove], [extend] and [update_reference] leave the
    expanded-list cache stale too.  [remove] changes the container exactly
    when the raw list has one candidate entry: it then returns, the raw
    list loses that entry only and the three caches are stale; with no
    candidate or several it raises and the store, caches included, is as
    it was. *)
Theorem mutations_invalidate_caches `{SpecCapability} h self c :
  objects h !! self = Some c ->
  (forall spec,
     add self spec h
     = (Ok tt,
        mkHeap
          (<[self := mkSpecList (name c) (_reference c)
                       (yaml_list c ++ [YStr (str spec)])
                       (match _expanded_list c with
                        | Some l => Some (l ++ [VStr (str spec)])
                        | None => None
                        end)
                       None None]> (objects h))
          (dicts h)))
  /\ (forall spec s,
        removal_candidates spec (yaml_list c) = [s] ->
        remove self spec h
        = (Ok tt,
           mkHeap
             (<[self := mkSpecList (name c) (_reference c)
                          (List.filter
                             (fun entry => negb (is_candidate spec entry))
                             (yaml_list c))
                          None None None]> (objects h))
             (dicts h)))
  /\ (forall spec,
        length (removal_candidates spec (yaml_list c)) <> 1 ->
        exists e, remove self spec h = (Raise e, h))
  /\ (forall other o copy_reference,
        objects h !! other = Some o ->
        extend self other copy_reference h
        = (Ok tt,
           mkHeap
             (<[self := mkSpecList (name c)
                          (if copy_reference then _reference o
                           else _reference c)
                          (yaml_list c ++ yaml_list o) None None None]>
                (objects h))
             (dicts h)))
  /\ (forall reference,
        update_reference self reference h
        = (Ok tt,
           mkHeap
             (<[self := mkSpecList (name c) reference (yaml_list c)
                          None None None]> (objects h))
             (dicts h))).
Proof.
  intros Hc. split_and!.
  - intros spec. rewrite (add_run h self c) by done.
    by destruct (_expanded_list c).
  - intros spec s Hone. rewrite (remove_outcome h self c) by done.
    by rewrite Hone, (list_remove_candidate spec).
  - intros spec Hlen. rewrite (remove_outcome h self c) by done.
    destruct (removal_candidates spec (yaml_list c)) as [|s [|s' rest]];
      [by eexists|done|by eexists].
  - intros other o copy_reference Ho. by apply extend_run.
  - intros reference. by apply update_reference_run.
Qed.

Lemma mutations_invalidate_caches_witness :
  objects demo_heap !! 2%positive = Some demo_A
  /\ add 2%positive (Text "c") demo_heap
     = (Ok tt,
        mkHeap
          (<[2%positive :=
               @mkSpecList text_specs "A" {[ "B" := 1%positive ]}
                 [YStr "a"; YStr "$^B"; YStr "b "; YDict pkg_matrix; YStr "c"]
                 (Some [VStr "a"; VStr "^x"; VStr "^y"; VStr "b ";
                        VDict 1%positive; VStr "c"])
                 None None]> (objects demo_heap))
          (dicts demo_heap))
  /\ remove 2%positive (Text "b") demo_heap
     = (Ok tt,
        mkHeap
          (<[2%positive :=
               @mkSpecList text_specs "A" {[ "B" := 1%positive ]}
                 [YStr "a"; YStr "$^B"; YDict pkg_matrix]
                 None None None]> (objects demo_heap))
          (dicts demo_heap))
  /\ (exists e, remove 2%positive (Text "$^B") demo_heap
                = (Raise e, demo_heap))
  /\ extend 2%positive 1%positive true demo_heap
     = (Ok tt,
        mkHeap
          (<[2%positive :=
               @mkSpecList text_specs "A" ∅
                 [YStr "a"; YStr "$^B"; YStr "b "; YDict pkg_matrix;
                  YStr "x"; YStr "y"]
                 None None None]> (objects demo_heap))
          (dicts demo_heap))
  /\ update_reference 2%positive ∅ demo_heap
     = (Ok tt,
        mkHeap
          (<[2%positive :=
               @mkSpecList text_specs "A" ∅
                 [YStr "a"; YStr "$^B"; YStr "b "; YDict pkg_matrix]
                 None None None]> (objects demo_heap))
          (dicts demo_heap)).
Proof.
  assert (objects demo_heap !! 2%positive = Some demo_A) as Hc
    by reflexivity.
  destruct (@mutations_invalidate_caches text_specs demo_heap 2%positive
              demo_A Hc) as (Hadd & Hremove & Hraise & Hextend & Hupdate).
  split_and!.
  - exact Hc.
  - apply Hadd.
  - apply (Hremove (Text "b") "b "). reflexivity.
  - apply Hraise. vm_compute. discriminate.
  - apply (Hextend 1%positive demo_B true). reflexivity.
  - apply Hupdate.
Defined.

(** * Removal (C8) *)

(** C8.  [remove] looks only at the raw entries that are strings, do not
    start with [$] and parse to a spec equal to the parsed argument.  With
    no such entry it raises the removal error, whose message names the spec
    and the container and mentions matrices, and the store is unchanged;
    with more than one it fails its assertion; with exactly one it removes
    that entry from the raw list and leaves all three caches stale. *)
Theorem remove_unique_plain_entry `{SpecCapability} h self c spec :
  objects h !! self = Some c ->
  YStr <$> removal_candidates spec (yaml_list c)
  = List.filter
      (fun entry =>
         match entry with
         | YStr s =>
             negb (startswith s "$") && Spec_eqb (parse s) (as_spec spec)
         | _ => false
         end) (yaml_list c)
  /\ (removal_candidates spec (yaml_list c) = [] ->
      remove self spec h
      = (Raise (SpecListError (removal_message (str spec) (name c))), h))
  /\ (1 < length (removal_candidates spec (yaml_list c)) ->
      remove self spec h = (Raise AssertionError, h))
  /\ (forall s,
        removal_candidates spec (yaml_list c) = [s] ->
        exists i,
          yaml_list c !! i = Some (YStr s)
          /\ (forall j entry,
                yaml_list c !! j = Some entry ->
                is_candidate spec entry = true -> j = i)
          /\ remove self spec h
             = (Ok tt,
                mkHeap
                  (<[self := mkSpecList (name c) (_reference c)
                               (delete i (yaml_list c)) None None None]>
                     (objects h))
                  (dicts h))).
Proof.
  intros Hc. split_and!.
  - apply removal_candidates_filter.
  - intros Hnone. rewrite (remove_outcome h self c) by done.
    by rewrite Hnone.
  - intros Hmany. rewrite (remove_outcome h self c) by done.
    destruct (removal_candidates spec (yaml_list c)) as [|s [|s' rest]];
      cbn in Hmany; [lia..|done].
  - intros s Hone.
    destruct (unique_candidate spec (yaml_list c) s Hone)
      as (i & Hi & Huniq & Hrem).
    exists i. split_and!; [done..|].
    rewrite (remove_outcome h self c) by done. by rewrite Hone, Hrem.
Qed.

Lemma remove_unique_plain_entry_witness :
  objects demo_heap !! 2%positive = Some demo_A
  /\ removal_candidates (H := text_specs) (Text "b") (yaml_list demo_A)
     = ["b "]
  /\ exists i : nat,
       yaml_list demo_A !! i = Some (YStr "b ")
       /\ (forall (j : nat) entry,
             yaml_list demo_A !! j = Some entry ->
             is_candidate (H := text_specs) (Text "b") entry = true -> j = i)
       /\ remove 2%positive (Text "b") demo_heap
          = (Ok tt,
             mkHeap
               (<[2%positive :=
                    @mkSpecList text_specs "A" {[ "B" := 1%positive ]}
                      (delete i (yaml_list demo_A)) None None None]>
                  (objects demo_heap))
               (dicts demo_heap)).
Proof.
  assert (objects demo_heap !! 2%positive = Some demo_A) as Hc
    by reflexivity.
  destruct (@remove_unique_plain_entry text_specs demo_heap 2%positive
              demo_A (Text "b") Hc) as (_ & _ & _ & Hone).
  split_and!; [exact Hc | reflexivity | apply Hone; reflexivity].
Defined.

(** * Adding a reference to a cached view (C9) *)

(** C9.  When the expanded-list cache is populated and [add] is given a
    string that starts with [$], the string itself is appended to the
    cache: reading the expanded view afterwards returns the cached list
    with the raw reference token at its end and computes nothing, whatever
    the reference map holds.  The token is resolved only after the cache
    has been made stale: in the program [stale_reference_demo] the view
    read after [add] ends in [$B], and the view read after the later
    [update_reference] has [x] in its place. *)
Theorem add_leaves_reference_unresolved `{SpecCapability} :
  (forall h self c l n,
     objects h !! self = Some c ->
     _expanded_list c = Some l ->
     exists h',
       add self (Text ("$" +:+ n)) h = (Ok tt, h')
       /\ forall depth,
            specs_as_yaml_list (S depth) self h'
            = (Ok (l ++ [VStr ("$" +:+ n)]), h'))
  /\ (stale_reference_demo empty_heap).1
     = Ok ([VStr "a"; VStr "$B"], [VStr "a"; VStr "x"]).
Proof.
  split; [|by vm_compute].
  intros h self c l n Hc Hl. eexists. split.
  - by apply add_run.
  - intros depth. cbn [specs_as_yaml_list].
    erewrite bind_run
      by (apply get_object_run; cbn [objects]; apply lookup_insert_eq).
    cbn [_expanded_list]. by rewrite Hl.
Qed.

Lemma add_leaves_reference_unresolved_witness :
  objects demo_heap !! 2%positive = Some demo_A
  /\ exists h',
       add 2%positive (Text ("$" +:+ "B")) demo_heap = (Ok tt, h')
       /\ forall depth,
            specs_as_yaml_list (S depth) 2%positive h'
            = (Ok ([VStr "a"; VStr "^x"; VStr "^y"; VStr "b ";
                    VDict 1%positive] ++ [VStr ("$" +:+ "B")]), h').
Proof.
  split; [reflexivity|].
  apply (proj1 (@add_leaves_reference_unresolved text_specs)
           demo_heap 2%positive demo_A); reflexivity.
Defined.

(** * More on the matrix expander *)

Section ExpanderMore.
Context `{SpecCapability}.

Lemma combo_step_specify excludes sigil combo :
  combo_step excludes sigil true combo
  = (out ← combo_step excludes sigil false combo;
     Ok (fmap (M := option) (map parse) out)).
Proof.
  unfold combo_step.
  destruct (any_satisfies _ (py_iter excludes)) as [[|]|]; [done| |done].
  cbn [mbind except_bind].
  by destruct (if truthy sigil then _ else _).
Qed.

Lemma expand_combos_specify excludes sigil rows :
  expand_combos excludes sigil true rows
  = (tokens ← expand_combos excludes sigil false rows;
     Ok (map (map parse) tokens)).
Proof.
  unfold expand_combos. generalize (product rows) as combos.
  enough (Hacc : forall combos (acc : list (list string)),
    for_each
      (fun results combo =>
         out ← combo_step excludes sigil true combo;
         Ok (match out with Some c => results ++ [c] | None => results end))
      combos (map (map parse) acc)
    = (tokens ← for_each
         (fun results combo =>
            out ← combo_step excludes sigil false combo;
            Ok (match out with Some c => results ++ [c] | None => results end))
         combos acc;
       Ok (map (map parse) tokens))).
  { intros combos. apply (Hacc combos []). }
  induction combos as [|combo combos IH]; intros acc; [done|].
  cbn [for_each]. rewrite combo_step_specify.
  destruct (combo_step excludes sigil false combo) as [[c|]|];
    cbn [mbind except_bind fmap option_fmap option_map]; [| |done].
  - specialize (IH (acc ++ [c])). rewrite map_app in IH. exact IH.
  - apply IH.
Qed.
End ExpanderMore.

(** X1.  The two modes of the expander differ only in the last step: the
    result with [specify=True] is the result with [specify=False] with
    every token parsed, and the two calls fail alike. *)
Theorem specify_parses_the_tokens `{SpecCapability} object :
  _expand_matrix_constraints object true
  = (tokens ← _expand_matrix_constraints object false;
     Ok (map (map parse) tokens)).
Proof.
  destruct object as [s|items|d]; [done..|].
  rewrite !expand_unfold.
  destruct (expanded_rows_of d) as [rows|]; [|done].
  apply expand_combos_specify.
Qed.

(** * Rows without alternatives, and bounds on the result *)

Lemma product_with_empty {A} (rows : list (list A)) :
  [] ∈ rows -> product rows = [].
Proof.
  induction rows as [|row rows IH]; intros Hin.
  - by apply elem_of_nil in Hin.
  - apply elem_of_cons in Hin as [<-|Hin]; [done|].
    cbn [product]. rewrite (IH Hin). by induction row.
Qed.

(** X2.  If one of the expanded rows offers no alternative, the expander
    returns no combo at all, whatever the exclusions and the sigil are:
    the body of the loop over the combos never runs. *)
Theorem empty_row_gives_no_combo `{SpecCapability} d rows specify :
  expanded_rows_of d = Ok rows ->
  [] ∈ rows ->
  _expand_matrix_constraints (YDict d) specify = Ok [].
Proof.
  intros Hrows Hin. rewrite expand_unfold, Hrows.
  cbn [mbind except_bind]. unfold expand_combos.
  by rewrite (product_with_empty rows Hin).
Qed.

Lemma empty_row_gives_no_combo_witness :
  expanded_rows_of (H := text_specs)
    [("matrix", YList [strings ["zlib"]; YList []]);
     ("exclude", YStr "zlib"); ("sigil", YList [YStr "^"])]
  = Ok [["zlib"]; []]
  /\ _expand_matrix_constraints (H := text_specs)
       (YDict [("matrix", YList [strings ["zlib"]; YList []]);
               ("exclude", YStr "zlib"); ("sigil", YList [YStr "^"])])
       true
     = Ok [].
Proof.
  split; [reflexivity|].
  apply (@empty_row_gives_no_combo text_specs _ [["zlib"]; []]);
    [reflexivity|].
  apply list_elem_of_further, list_elem_of_here.
Defined.

Section ResultShape.
Context `{SpecCapability}.

(** What the sigil step makes of a combo when it succeeds. *)
Lemma with_sigil_ok s oc combo :
  with_sigil s oc = Ok combo ->
  combo = if String.eqb s "" then oc else sigil_on_first s oc.
Proof.
  unfold with_sigil. destruct (String.eqb s ""); [by intros [= <-]|].
  destruct oc; [done | by intros [= <-]].
Qed.

Lemma with_sigil_length s oc combo :
  with_sigil s oc = Ok combo -> length combo = length oc.
Proof.
  intros ->%with_sigil_ok. destruct (String.eqb s ""); [done|].
  by destruct oc.
Qed.

Lemma surviving_length xs rows :
  length (surviving xs rows) <= rows_product rows.
Proof.
  unfold surviving. rewrite <- product_length.
  etransitivity; [apply List.filter_length_le|]. by rewrite length_fmap.
Qed.

(** The survivors under more exclusions are among the survivors under
    fewer, in the same order. *)
Lemma surviving_sublist xs xs' rows :
  (forall x, x ∈ xs -> x ∈ xs') ->
  sublist (surviving xs' rows) (surviving xs rows).
Proof.
  intros Hsub. unfold surviving.
  induction (sorted spec_ordering_key <$> product rows) as [|oc ocs IH];
    [done|].
  cbn [List.filter].
  destruct (excluded_by xs' oc) eqn:Hmore; cbn [negb].
  - destruct (negb (excluded_by xs oc)); [by apply sublist_cons | done].
  - assert (excluded_by xs oc = false) as ->; [|by apply sublist_skip].
    apply not_true_is_false. intros Hless.
    apply existsb_exists in Hless as (x & Hin & Hx).
    assert (excluded_by xs' oc = true) as Hyes; [|congruence].
    apply existsb_exists. exists x. split; [|done].
    by apply list_elem_of_In, Hsub, list_elem_of_In.
Qed.
End ResultShape.

(** X3.  Every combo the expander returns has exactly one token for each
    expanded row; the sort and the sigil neither drop nor add a token. *)
Theorem combo_has_one_token_per_row `{SpecCapability} d rows xs s results :
  expanded_rows_of d = Ok rows ->
  py_iter (excludes_of d) = YStr <$> xs ->
  sigil_of d = YStr s ->
  _expand_matrix_constraints (YDict d) false = Ok results ->
  Forall (fun combo => length combo = length rows) results.
Proof.
  intros Hrows Hxs Hs Hres.
  eapply Forall_impl;
    [exact (Forall2_source _ _ _
              (expand_tokens_inv d rows xs s results Hrows Hxs Hs Hres))|].
  intros combo (oc & Hin & Hoc).
  apply surviving_sorted in Hin as (tuple & Hin & -> & _). cbn beta.
  transitivity (length (sorted spec_ordering_key tuple));
    [exact (with_sigil_length _ _ _ Hoc)|].
  rewrite sorted_length.
  apply product_tuples in Hin. by apply Forall2_length in Hin.
Qed.

Lemma combo_has_one_token_per_row_witness :
  Forall (fun combo => length combo = length [["pkg"]; ["@1.0"; "@2.0"]])
    [["pkg"; "@1.0"]].
Proof.
  apply (@combo_has_one_token_per_row text_specs pkg_matrix
           [["pkg"]; ["@1.0"; "@2.0"]] ["pkg@2.0"] "" [["pkg"; "@1.0"]]);
    reflexivity.
Defined.

(** X4.  The number of combos the expander returns never exceeds the
    product of the lengths of the expanded rows. *)
Theorem combo_count_bound `{SpecCapability} d rows xs s specify results :
  expanded_rows_of d = Ok rows ->
  py_iter (excludes_of d) = YStr <$> xs ->
  sigil_of d = YStr s ->
  _expand_matrix_constraints (YDict d) specify = Ok results ->
  length results <= rows_product rows.
Proof.
  intros Hrows Hxs Hs. rewrite (expand_pipeline d rows xs s) by done.
  intros (out & Hout & [= <-])%except_bind_ok.
  rewrite length_fmap, (comprehension_ok_length _ _ _ Hout).
  apply surviving_length.
Qed.

Lemma combo_count_bound_witness :
  length ([["pkg"; "@1.0"]] : list (list string))
  <= rows_product [["pkg"]; ["@1.0"; "@2.0"]].
Proof.
  apply (@combo_count_bound text_specs pkg_matrix
           [["pkg"]; ["@1.0"; "@2.0"]] ["pkg@2.0"] "" false);
    reflexivity.
Defined.

(** X5.  Exclusions only remove combos: of two matrix records with the
    same expanded rows and the same sigil, the one with more exclusions
    returns a sublist of what the other returns, in the same order. *)
Theorem more_exclusions_fewer_combos `{SpecCapability}
    d d' rows xs xs' s fewer more :
  expanded_rows_of d = Ok rows ->
  expanded_rows_of d' = Ok rows ->
  py_iter (excludes_of d) = YStr <$> xs ->
  py_iter (excludes_of d') = YStr <$> xs' ->
  (forall x, x ∈ xs -> x ∈ xs') ->
  sigil_of d = YStr s ->
  sigil_of d' = YStr s ->
  _expand_matrix_constraints (YDict d) false = Ok more ->
  _expand_matrix_constraints (YDict d') false = Ok fewer ->
  sublist fewer more.
Proof.
  intros Hrows Hrows' Hxs Hxs' Hsub Hs Hs' Hmore Hfewer.
  pose proof (expand_tokens_inv d rows xs s more Hrows Hxs Hs Hmore) as H1.
  pose proof (expand_tokens_inv d' rows xs' s fewer Hrows' Hxs' Hs' Hfewer)
    as H2.
  assert (forall l r,
            Forall2 (fun oc combo => with_sigil s oc = Ok combo) l r ->
            r = (fun oc => if String.eqb s "" then oc
                           else sigil_on_first s oc) <$> l) as Hmap.
  { induction 1 as [|oc combo l r Hoc _ IH]; [done|].
    cbn [fmap list_fmap]. f_equal; [by apply with_sigil_ok | exact IH]. }
  rewrite (Hmap _ _ H1), (Hmap _ _ H2).
  by apply fmap_sublist, surviving_sublist.
Qed.

Lemma more_exclusions_fewer_combos_witness :
  sublist ([["pkg"; "@1.0"]] : list (list string))
    [["pkg"; "@1.0"]; ["pkg"; "@2.0"]].
Proof.
  apply (@more_exclusions_fewer_combos text_specs
           [("matrix", YList [strings ["pkg"]; strings ["@1.0"; "@2.0"]])]
           pkg_matrix [["pkg"]; ["@1.0"; "@2.0"]] [] ["pkg@2.0"] "");
    try reflexivity.
  intros x Hx. by apply elem_of_nil in Hx.
Defined.

(** X6.  A matrix record that has only a [matrix] of rows of strings, no
    [exclude] and no [sigil], expands to the Cartesian product of its rows
    in product order, each tuple stably sorted by the ordering key. *)
Theorem flat_matrix_is_sorted_product `{SpecCapability} d
    (rows : list (list string)) :
  dict_get "matrix" d = Some (YList (strings <$> rows)) ->
  dict_get "exclude" d = None ->
  dict_get "sigil" d = None ->
  _expand_matrix_constraints (YDict d) false
  = Ok (sorted spec_ordering_key <$> product rows).
Proof.
  intros Hm Hx Hs.
  rewrite (expand_pipeline d rows [] "").
  - rewrite surviving_unfiltered.
    rewrite (comprehension_ok_fmap _ id); [|by apply Forall_forall].
    cbn [mbind except_bind]. by rewrite emit_tokens, list_fmap_id.
  - by apply expanded_rows_flat.
  - unfold excludes_of. by rewrite Hx.
  - unfold sigil_of. by rewrite Hs.
Qed.

Lemma flat_matrix_is_sorted_product_witness :
  _expand_matrix_constraints (H := text_specs)
    (YDict [("matrix", YList (strings <$> [["%gcc"; "%clang"]; ["zlib"]]))])
    false
  = Ok [["zlib"; "%gcc"]; ["zlib"; "%clang"]].
Proof.
  apply (@flat_matrix_is_sorted_product text_specs _
           [["%gcc"; "%clang"]; ["zlib"]]); reflexivity.
Defined.

(** X7.  Tokens written in ascending key order are left as they are by
    the sort, and sorting twice is sorting once. *)
Theorem sorted_keeps_ascending (tuple : list string) :
  (ascending spec_ordering_key tuple ->
   sorted spec_ordering_key tuple = tuple)
  /\ sorted spec_ordering_key (sorted spec_ordering_key tuple)
     = sorted spec_ordering_key tuple.
Proof.
  assert (forall l, ascending spec_ordering_key l ->
                    sorted spec_ordering_key l = l) as Hfix.
  { unfold ascending. induction 1 as [|x l Hl IH Hx]; [done|].
    cbn [sorted foldr]. fold (sorted spec_ordering_key l). rewrite IH.
    destruct l as [|y l']; [done|]. cbn [insert_by].
    apply Forall_cons in Hx as [Hxy _].
    by apply Nat.leb_le in Hxy as ->. }
  split; [apply Hfix | apply Hfix, sorted_ascending].
Qed.

Lemma sorted_keeps_ascending_witness :
  sorted spec_ordering_key ["zlib"; "@1.2"; "+pic"; "%gcc"; "^mpi"]
  = ["zlib"; "@1.2"; "+pic"; "%gcc"; "^mpi"].
Proof.
  apply (proj1 (sorted_keeps_ascending _)).
  repeat (constructor; [|repeat constructor; vm_compute; lia]).
  constructor.
Defined.

(** X8.  Brackets inside a row do not matter: a cell that is itself a
    list is flattened into the row at its place. *)
Theorem flatten_ignores_brackets `{SpecCapability} sub cells rest :
  _expand_flatten sub (YList (YList cells :: rest))
  = _expand_flatten sub (YList (cells ++ rest)).
Proof. by rewrite flatten_app, flatten_cons. Qed.

(** * More on the reference resolver *)

Section ResolverMore.
Context `{SpecCapability}.

Lemma bind_raise {A B} (m : M A) (f : A -> M B) h e h' :
  m h = (Raise e, h') -> (m ≫= f) h = (Raise e, h').
Proof. intros Hm. unfold mbind, M_bind. by rewrite Hm. Qed.

(** The loop of the resolver over plain strings copies them. *)
Lemma expand_plain_strings self view_of recurse xs ret h :
  Forall (fun s => startswith s "$" = false) xs ->
  for_each (expand_item self view_of recurse) (YStr <$> xs) ret h
  = (Ok (ret ++ (VStr <$> xs)), h).
Proof.
  intros Hplain. revert ret.
  induction Hplain as [|s xs Hs _ IH]; intros ret.
  - cbn. by rewrite app_nil_r.
  - cbn [fmap list_fmap for_each].
    assert (expand_item self view_of recurse ret (YStr s) h
            = (Ok (ret ++ [VStr s]), h)) as Hstep.
    { cbn [expand_item]. by rewrite Hs. }
    rewrite (bind_run _ _ _ _ _ Hstep), IH. by rewrite <- app_assoc.
Qed.

Lemma specs_as_yaml_list_unfold depth self :
  specs_as_yaml_list (S depth) self
  = (c ← get_object self;
     match _expanded_list c with
     | None =>
         v ← _expand_references depth self (YList (yaml_list c));
         match v with
         | VList l =>
             update_object self (set_expanded_list (Some l));; mret l
         | _ => raise TypeError
         end
     | Some l => mret l
     end).
Proof. reflexivity. Qed.

Lemma expand_list_unfold depth self items :
  _expand_references (S depth) self (YList items)
  = (ret ← for_each
             (expand_item self (specs_as_yaml_list depth)
                (_expand_references depth self)) items [];
     mret (VList ret)).
Proof. reflexivity. Qed.

(** A read of the view that returns leaves the view cached. *)
Lemma view_cached_after_read depth self h l h' :
  specs_as_yaml_list depth self h = (Ok l, h') ->
  exists c', objects h' !! self = Some c' /\ _expanded_list c' = Some l.
Proof.
  destruct depth as [|depth]; [done|].
  rewrite specs_as_yaml_list_unfold. unfold mbind at 1, M_bind at 1.
  unfold get_object. destruct (objects h !! self) as [c|] eqn:Hc; [|done].
  destruct (_expanded_list c) as [l0|] eqn:Hl0.
  - intros [= <- <-]. eauto.
  - unfold mbind at 1, M_bind at 1.
    destruct (_expand_references depth self _ h) as [[[s|l1|o]|e] h1];
      [done| |done..].
    unfold mbind, M_bind, update_object.
    destruct (objects h1 !! self) as [c1|]; [|done].
    intros [= <- <-]. eexists. cbn [objects].
    rewrite lookup_insert_eq. done.
Qed.
End ResolverMore.

(** X9.  The expanded view is memoized: once a read of
    [specs_as_yaml_list] has returned, every later read returns the same
    list and leaves the store as it is. *)
Theorem expanded_view_is_memoized `{SpecCapability} depth self h l h' :
  specs_as_yaml_list depth self h = (Ok l, h') ->
  forall depth', specs_as_yaml_list (S depth') self h' = (Ok l, h').
Proof.
  intros (c' & Hc' & Hl)%view_cached_after_read depth'.
  rewrite specs_as_yaml_list_unfold.
  erewrite bind_run by (by apply get_object_run). by rewrite Hl.
Qed.

Lemma expanded_view_is_memoized_witness :
  specs_as_yaml_list (H := text_specs) (S 0) 2%positive demo_heap
  = (Ok [VStr "a"; VStr "^x"; VStr "^y"; VStr "b "; VDict 1%positive],
     demo_heap).
Proof.
  apply (@expanded_view_is_memoized text_specs 5 2%positive demo_heap).
  reflexivity.
Defined.

(** A container whose raw entries are all strings that do not start with
    [$] has these strings as its expanded view; the first read caches
    them. *)
Lemma plain_view_run `{SpecCapability} depth self c xs h :
  objects h !! self = Some c ->
  _expanded_list c = None ->
  yaml_list c = YStr <$> xs ->
  Forall (fun s => startswith s "$" = false) xs ->
  specs_as_yaml_list (S (S depth)) self h
  = (Ok (VStr <$> xs),
     mkHeap (<[self := set_expanded_list (Some (VStr <$> xs)) c]> (objects h))
            (dicts h)).
Proof.
  intros Hc Hstale Hraw Hplain. rewrite specs_as_yaml_list_unfold.
  erewrite bind_run by (by apply get_object_run).
  cbn beta. rewrite Hstale, Hraw, expand_list_unfold.
  erewrite bind_run.
  2:{ erewrite bind_run by (by apply expand_plain_strings). done. }
  cbn beta iota.
  erewrite bind_run by (by apply update_object_run). done.
Qed.

(** A reference to a name that the reference map does not bind makes the
    read of the view raise, and nothing is cached. *)
Lemma read_unbound_reference `{SpecCapability}
    depth self c xs sigil n rest h :
  objects h !! self = Some c ->
  _expanded_list c = None ->
  yaml_list c = (YStr <$> xs) ++ YStr ("$" +:+ sigil +:+ n) :: rest ->
  Forall (fun s => startswith s "$" = false) xs ->
  sigil ∈ [""; "^"; "%"] ->
  startswith n "^" = false ->
  startswith n "%" = false ->
  _reference c !! n = None ->
  specs_as_yaml_list (S (S depth)) self h
  = (Raise (UndefinedReferenceError
              (undefined_reference_message (name c) n)), h).
Proof.
  intros Hc Hstale Hraw Hplain Hsigil Hcaret Hpercent Hn.
  rewrite specs_as_yaml_list_unfold.
  erewrite bind_run by (by apply get_object_run).
  cbn beta. rewrite Hstale, Hraw, expand_list_unfold.
  erewrite bind_raise; [done|].
  erewrite bind_raise; [done|].
  rewrite for_each_app, expand_plain_strings by done.
  cbn [for_each]. erewrite bind_raise; [done|].
  cbn [expand_item].
  assert (startswith ("$" +:+ sigil +:+ n) "$" = true) as ->
    by apply (startswith_char "$" (sigil +:+ n) "$").
  erewrite bind_raise; [done|].
  unfold _parse_reference.
  erewrite bind_run by (by apply get_object_run).
  assert (sigil = "" \/ sigil = "^" \/ sigil = "%") as Hcases.
  { repeat (apply elem_of_cons in Hsigil as [Heq|Hsigil]; [tauto|]).
    by apply elem_of_nil in Hsigil. }
  destruct Hcases as [Heq|[Heq|Heq]]; subst sigil.
  - change (tail ("$" +:+ "" +:+ n)) with n.
    rewrite Hcaret, Hpercent. cbn. by rewrite Hn.
  - change (tail ("$" +:+ "^" +:+ n)) with (String "^" n).
    rewrite !startswith_char. cbn. by rewrite Hn.
  - change (tail ("$" +:+ "%" +:+ n)) with (String "%" n).
    rewrite !startswith_char. cbn. by rewrite Hn.
Qed.

Section ResolverEdges.
Context `{SpecCapability}.

Lemma expand_string_raises depth self s h :
  exists e, _expand_references depth self (YStr s) h = (Raise e, h).
Proof. destruct depth; by eexists. Qed.

(** A comprehension that returns ran its body on every element. *)
Lemma comprehension_ran {A B} (f : A -> M B) xs h r h' x :
  comprehension f xs h = (Ok r, h') ->
  x ∈ xs ->
  exists h1 y h2, f x h1 = (Ok y, h2).
Proof.
  revert h r. induction xs as [|x' xs IH]; intros h r Hrun Hin.
  - by apply elem_of_nil in Hin.
  - cbn [comprehension] in Hrun. unfold mbind at 1, M_bind at 1 in Hrun.
    destruct (f x' h) as [[y|e] h1] eqn:Hx'; [|done].
    apply elem_of_cons in Hin as [->|Hin]; [eauto|].
    unfold mbind at 1, M_bind at 1 in Hrun.
    destruct (comprehension f xs h1) as [[ys|e] h2] eqn:Hrest; [|done].
    injection Hrun as <- <-. exact (IH _ _ Hrest Hin).
Qed.
End ResolverEdges.

(** X10.  The resolver expands the value under every key of a dict and
    accepts only lists and dicts there: a dict with a string under any
    key, such as a matrix record written with its own [sigil], makes the
    expansion raise. *)
Theorem string_valued_key_raises `{SpecCapability} depth self d key s h :
  (key, YStr s) ∈ d ->
  exists e h', _expand_references depth self (YDict d) h = (Raise e, h').
Proof.
  intros Hin.
  destruct (_expand_references depth self (YDict d) h) as [[v|e] h'] eqn:Hrun;
    [|eauto].
  exfalso. destruct depth as [|depth]; [done|].
  cbn [_expand_references] in Hrun. unfold mbind at 1, M_bind at 1 in Hrun.
  destruct (comprehension (M := M) _ d h) as [[pairs|e] h1] eqn:Hpairs;
    [|done].
  destruct (comprehension_ran _ _ _ _ _ _ Hpairs Hin) as (h2 & y & h3 & Hy).
  cbn beta iota in Hy. unfold mbind, M_bind in Hy.
  destruct (expand_string_raises depth self s h2) as [e He].
  by rewrite He in Hy.
Qed.

Lemma string_valued_key_raises_witness :
  exists e h',
    _expand_references (H := text_specs) 3 2%positive
      (YDict [("matrix", YList [strings ["zlib"]]); ("sigil", YStr "^")])
      demo_heap
    = (Raise e, h').
Proof.
  apply (@string_valued_key_raises text_specs 3 2%positive _ "sigil" "^").
  apply list_elem_of_further, list_elem_of_here.
Defined.

(** X11.  Nothing guards against a container that refers to itself: with
    a stale cache and a reference to its own name behind plain entries,
    the read of the view recurses until the interpreter gives up, at every
    recursion limit, and the store is left as it was. *)
Theorem self_reference_never_returns `{SpecCapability}
    self c xs sigil n rest h :
  objects h !! self = Some c ->
  _expanded_list c = None ->
  yaml_list c = (YStr <$> xs) ++ YStr ("$" +:+ sigil +:+ n) :: rest ->
  Forall (fun s => startswith s "$" = false) xs ->
  sigil ∈ [""; "^"; "%"] ->
  startswith n "^" = false ->
  startswith n "%" = false ->
  _reference c !! n = Some self ->
  forall depth, specs_as_yaml_list depth self h = (Raise RecursionError, h).
Proof.
  intros Hc Hstale Hraw Hplain Hsigil Hcaret Hpercent Hn.
  enough (Hboth : forall depth,
            specs_as_yaml_list depth self h = (Raise RecursionError, h)
            /\ specs_as_yaml_list (S depth) self h
               = (Raise RecursionError, h)).
  { intros depth. apply Hboth. }
  assert (forall depth,
            specs_as_yaml_list depth self h = (Raise RecursionError, h) ->
            specs_as_yaml_list (S (S depth)) self h
            = (Raise RecursionError, h)) as Hstep.
  { intros depth IH. rewrite specs_as_yaml_list_unfold.
    erewrite bind_run by (by apply get_object_run).
    cbn beta. rewrite Hstale, Hraw, expand_list_unfold.
    erewrite bind_raise; [done|].
    erewrite bind_raise; [done|].
    rewrite for_each_app, expand_plain_strings by done.
    cbn [for_each]. erewrite bind_raise; [done|].
    cbn [expand_item].
    assert (startswith ("$" +:+ sigil +:+ n) "$" = true) as ->
      by apply (startswith_char "$" (sigil +:+ n) "$").
    erewrite bind_run by (by eapply parse_reference_run).
    cbn beta iota.
    erewrite bind_run by (by apply get_object_run).
    rewrite Hn. by erewrite bind_raise. }
  induction depth as [|depth [IH0 IH1]].
  - split; [done|]. rewrite specs_as_yaml_list_unfold.
    erewrite bind_run by (by apply get_object_run).
    cbn beta. by rewrite Hstale.
  - split; [exact IH1 | by apply Hstep].
Qed.

Lemma self_reference_never_returns_witness :
  specs_as_yaml_list (H := text_specs) recursion_limit 1%positive
    (mkHeap {[ 1%positive :=
                 @mkSpecList text_specs "A" {[ "A" := 1%positive ]}
                   ((YStr <$> ["zlib"]) ++ YStr ("$" +:+ "" +:+ "A") :: [])
                   None None None ]} ∅)
  = (Raise RecursionError,
     mkHeap {[ 1%positive :=
                 @mkSpecList text_specs "A" {[ "A" := 1%positive ]}
                   ((YStr <$> ["zlib"]) ++ YStr ("$" +:+ "" +:+ "A") :: [])
                   None None None ]} ∅).
Proof.
  apply (@self_reference_never_returns text_specs 1%positive
           (@mkSpecList text_specs "A" {[ "A" := 1%positive ]}
              ((YStr <$> ["zlib"]) ++ YStr ("$" +:+ "" +:+ "A") :: [])
              None None None) ["zlib"] "" "A" []); try reflexivity.
  - repeat constructor.
  - apply list_elem_of_here.
Defined.

Section SharedRecords.
Context `{SpecCapability}.

Lemma cached_view_run depth target t l h :
  objects h !! target = Some t ->
  _expanded_list t = Some l ->
  specs_as_yaml_list (S depth) target h = (Ok l, h).
Proof.
  intros Ht Hl. rewrite specs_as_yaml_list_unfold.
  erewrite bind_run by (by apply get_object_run). cbn beta. by rewrite Hl.
Qed.

(** The loop body at a reference to a container whose cached view is one
    dict object. *)
Lemma expand_item_record depth self c n target t sigil o d h ret :
  objects h !! self = Some c ->
  _reference c !! n = Some target ->
  objects h !! target = Some t ->
  _expanded_list t = Some [VDict o] ->
  dicts h !! o = Some d ->
  sigil ∈ ["^"; "%"] ->
  startswith n "^" = false ->
  startswith n "%" = false ->
  expand_item self (specs_as_yaml_list (S depth))
    (_expand_references (S depth) self) ret (YStr ("$" +:+ sigil +:+ n)) h
  = (Ok (ret ++ [VDict o]),
     mkHeap (objects h) (<[o := <["sigil" := VStr sigil]> d]> (dicts h))).
Proof.
  intros Hc Hn Ht Hview Hd Hsigil Hcaret Hpercent. cbn [expand_item].
  assert (startswith ("$" +:+ sigil +:+ n) "$" = true) as ->
    by apply (startswith_char "$" (sigil +:+ n) "$").
  assert (sigil ∈ [""; "^"; "%"]) as Hsigil' by by apply list_elem_of_further.
  erewrite bind_run by (by eapply parse_reference_run).
  cbn beta iota.
  erewrite bind_run by (by apply get_object_run).
  rewrite Hn.
  erewrite bind_run by (by eapply cached_view_run).
  assert (String.eqb sigil "" = false) as Hnonempty.
  { repeat (apply elem_of_cons in Hsigil as [->|Hsigil]; [done|]).
    by apply elem_of_nil in Hsigil. }
  erewrite bind_run; [done|].
  cbn [comprehension _sigilify]. rewrite Hnonempty. cbn [negb].
  erewrite bind_run; [done|].
  erewrite bind_run; [done|].
  unfold dict_setitem. by rewrite Hd.
Qed.
End SharedRecords.

(** X12.  A matrix record pulled in through two references with different
    sigils is one shared dict object: both entries of the expanded view
    are that object, and the sigil of the second reference has replaced
    the sigil of the first, also in the cache of the referenced
    container. *)
Theorem shared_record_gets_last_sigil `{SpecCapability}
    depth self c n target t first second o d h :
  objects h !! self = Some c ->
  _reference c !! n = Some target ->
  objects h !! target = Some t ->
  _expanded_list t = Some [VDict o] ->
  dicts h !! o = Some d ->
  first ∈ ["^"; "%"] ->
  second ∈ ["^"; "%"] ->
  startswith n "^" = false ->
  startswith n "%" = false ->
  _expand_references (S (S depth)) self
    (YList [YStr ("$" +:+ first +:+ n); YStr ("$" +:+ second +:+ n)]) h
  = (Ok (VList [VDict o; VDict o]),
     mkHeap (objects h) (<[o := <["sigil" := VStr second]> d]> (dicts h))).
Proof.
  intros Hc Hn Ht Hview Hd Hfirst Hsecond Hcaret Hpercent.
  rewrite expand_list_unfold. cbn [for_each].
  erewrite bind_run; [done|].
  erewrite bind_run by (by eapply expand_item_record).
  erewrite bind_run.
  2:{ eapply (expand_item_record depth self c n target t second o
                (<["sigil" := VStr first]> d)); try done.
      apply lookup_insert_eq. }
  cbn [mret M_ret dicts objects app].
  by rewrite !insert_insert_eq.
Qed.

Lemma shared_record_gets_last_sigil_witness :
  _expand_references (H := text_specs) 2 2%positive
    (YList [YStr ("$" +:+ "^" +:+ "B"); YStr ("$" +:+ "%" +:+ "B")])
    (mkHeap {[ 1%positive :=
                 @mkSpecList text_specs "B" ∅ [YDict [("matrix", YList [])]]
                   (Some [VDict 1%positive]) None None;
               2%positive := demo_A ]}
            {[ 1%positive := {[ "matrix" := VList [] ]} ]})
  = (Ok (VList [VDict 1%positive; VDict 1%positive]),
     mkHeap {[ 1%positive :=
                 @mkSpecList text_specs "B" ∅ [YDict [("matrix", YList [])]]
                   (Some [VDict 1%positive]) None None;
               2%positive := demo_A ]}
            (<[1%positive :=
                 <["sigil" := VStr "%"]> {[ "matrix" := VList [] ]}]>
               {[ 1%positive := {[ "matrix" := VList [] ]} ]})).
Proof.
  apply (@shared_record_gets_last_sigil text_specs 0 2%positive demo_A "B"
           1%positive
           (@mkSpecList text_specs "B" ∅ [YDict [("matrix", YList [])]]
              (Some [VDict 1%positive]) None None)
           "^" "%" 1%positive {[ "matrix" := VList [] ]});
    try reflexivity.
  - apply list_elem_of_here.
  - apply list_elem_of_further, list_elem_of_here.
Defined.

(** X13.  After [update_reference] the next read of the view resolves the
    references against the new map, whatever the old map and the old
    cache were: with plain entries around a reference to a name that the
    new map binds to a container with a cached view of strings, the view
    is the entries with those strings, sigil in front, at the place of the
    reference. *)
Theorem new_reference_is_resolved `{SpecCapability}
    depth self c reference n target t sigil xs ys zs h :
  objects h !! self = Some c ->
  yaml_list c
  = (YStr <$> xs) ++ YStr ("$" +:+ sigil +:+ n) :: (YStr <$> zs) ->
  Forall (fun s => startswith s "$" = false) xs ->
  Forall (fun s => startswith s "$" = false) zs ->
  sigil ∈ [""; "^"; "%"] ->
  startswith n "^" = false ->
  startswith n "%" = false ->
  reference !! n = Some target ->
  target <> self ->
  objects h !! target = Some t ->
  _expanded_list t = Some (VStr <$> ys) ->
  let view := (VStr <$> xs)
              ++ ((fun y => VStr (sigil +:+ y)) <$> ys) ++ (VStr <$> zs) in
  (update_reference self reference;;
   specs_as_yaml_list (S (S (S depth))) self) h
  = (Ok view,
     mkHeap (<[self := mkSpecList (name c) reference (yaml_list c)
                         (Some view) None None]> (objects h))
            (dicts h)).
Proof.
  intros Hc Hraw Hxs Hzs Hsigil Hcaret Hpercent Hn Hne Ht Hview view.
  erewrite bind_run by (by apply update_reference_run).
  set (c' := mkSpecList (name c) reference (yaml_list c) None None None).
  set (h' := mkHeap (<[self := c']> (objects h)) (dicts h)).
  assert (objects h' !! self = Some c') as Hc'
    by apply lookup_insert_eq.
  assert (objects h' !! target = Some t) as Ht'.
  { cbn [h' objects]. by rewrite lookup_insert_ne. }
  rewrite specs_as_yaml_list_unfold.
  erewrite bind_run by (by apply get_object_run).
  cbn beta. cbn [c' _expanded_list yaml_list]. rewrite Hraw.
  rewrite expand_list_unfold.
  erewrite bind_run.
  2:{ erewrite bind_run; [done|].
      rewrite for_each_app, expand_plain_strings by done.
      cbn [for_each app].
      erewrite bind_run.
      2:{ eapply expand_item_reference; try done.
          by eapply cached_view_run. }
      by apply expand_plain_strings. }
  cbn beta iota.
  erewrite bind_run by (by apply update_object_run).
  cbn [mret M_ret h' objects dicts]. rewrite insert_insert_eq.
  subst view. rewrite <- Hraw, <- !app_assoc. reflexivity.
Qed.

Lemma new_reference_is_resolved_witness :
  (update_reference (H := text_specs) 2%positive {[ "B" := 1%positive ]};;
   specs_as_yaml_list 3 2%positive)
    (mkHeap {[ 1%positive := demo_B;
               2%positive :=
                 @mkSpecList text_specs "A" ∅
                   [YStr "a"; YStr ("$" +:+ "^" +:+ "B"); YStr "b"]
                   (Some [VStr "stale"]) None None ]}
            ∅)
  = (Ok [VStr "a"; VStr "^x"; VStr "^y"; VStr "b"],
     mkHeap (<[2%positive :=
                 @mkSpecList text_specs "A" {[ "B" := 1%positive ]}
                   [YStr "a"; YStr ("$" +:+ "^" +:+ "B"); YStr "b"]
                   (Some [VStr "a"; VStr "^x"; VStr "^y"; VStr "b"])
                   None None]>
               {[ 1%positive := demo_B;
                  2%positive :=
                    @mkSpecList text_specs "A" ∅
                      [YStr "a"; YStr ("$" +:+ "^" +:+ "B"); YStr "b"]
                      (Some [VStr "stale"]) None None ]})
            ∅).
Proof.
  apply (@new_reference_is_resolved text_specs 0 2%positive
           (@mkSpecList text_specs "A" ∅
              [YStr "a"; YStr ("$" +:+ "^" +:+ "B"); YStr "b"]
              (Some [VStr "stale"]) None None)
           {[ "B" := 1%positive ]} "B" 1%positive demo_B "^"
           ["a"] ["x"; "y"] ["b"]);
    try reflexivity.
  - repeat constructor.
  - repeat constructor.
  - apply list_elem_of_further, list_elem_of_here.
  - discriminate.
Defined.

Section AddThenRemove.
Context `{SpecCapability}.

Lemma delete_last {A} (l : list A) x : delete (length l) (l ++ [x]) = l.
Proof.
  induction l as [|y l IH]; [done|].
  change (y :: delete (length l) (l ++ [x]) = y :: l). by rewrite IH.
Qed.

Lemma removal_candidates_app spec l l' :
  removal_candidates spec (l ++ l')
  = removal_candidates spec l ++ removal_candidates spec l'.
Proof. unfold removal_candidates. apply bind_app. Qed.

(** The entry [add] appends is a candidate for [remove] exactly when it is
    no reference and parses to a spec equal to the argument. *)
Lemma removal_candidates_added spec l :
  startswith (str spec) "$" = false ->
  Spec_eqb (parse (str spec)) (as_spec spec) = true ->
  removal_candidates spec (l ++ [YStr (str spec)])
  = removal_candidates spec l ++ [str spec].
Proof.
  intros Hplain Hequal. rewrite removal_candidates_app. f_equal.
  rewrite removal_candidates_cons. unfold is_candidate.
  by rewrite Hplain, Hequal.
Qed.

Lemma add_then_remove_run h self c spec :
  objects h !! self = Some c ->
  (add self spec;; remove self spec) h
  = remove self spec
      (mkHeap
         (<[self := mkSpecList (name c) (_reference c)
                      (yaml_list c ++ [YStr (str spec)])
                      ((fun l => l ++ [VStr (str spec)]) <$> _expanded_list c)
                      None None]> (objects h))
         (dicts h)).
Proof. intros Hc. by erewrite bind_run by (by apply add_run). Qed.
End AddThenRemove.

(** X14.  [add] followed by [remove] of the same spec is a round trip on
    the raw list: when the spec is no reference, parses back to itself and
    no entry of the list was a candidate before, the raw list is as it
    was; the three caches are stale afterwards, whatever they held. *)
Theorem add_then_remove_restores `{SpecCapability} h self c spec :
  objects h !! self = Some c ->
  startswith (str spec) "$" = false ->
  Spec_eqb (parse (str spec)) (as_spec spec) = true ->
  removal_candidates spec (yaml_list c) = [] ->
  (add self spec;; remove self spec) h
  = (Ok tt,
     mkHeap
       (<[self := mkSpecList (name c) (_reference c) (yaml_list c)
                    None None None]> (objects h))
       (dicts h)).
Proof.
  intros Hc Hplain Hequal Hnone. rewrite (add_then_remove_run h self c) by done.
  rewrite (remove_outcome _ self
             (mkSpecList (name c) (_reference c)
                (yaml_list c ++ [YStr (str spec)])
                ((fun l => l ++ [VStr (str spec)]) <$> _expanded_list c)
                None None)) by apply lookup_insert_eq.
  cbn [yaml_list name _reference].
  pose proof (removal_candidates_added spec (yaml_list c) Hplain Hequal)
    as Hcands.
  rewrite Hnone in Hcands. cbn [app] in Hcands. rewrite Hcands.
  destruct (unique_candidate _ _ _ Hcands) as (i & Hi & Honly & ->).
  assert (length (yaml_list c) = i) as <-.
  { apply (Honly _ (YStr (str spec))).
    - by rewrite lookup_app_r, Nat.sub_diag.
    - unfold is_candidate. by rewrite Hplain, Hequal. }
  cbn [objects dicts]. rewrite insert_insert_eq.
  by rewrite delete_last.
Qed.

Lemma add_then_remove_restores_witness :
  (add (H := text_specs) 1%positive (Text "z");;
   remove 1%positive (Text "z")) demo_heap
  = (Ok tt,
     mkHeap
       (<[1%positive := @mkSpecList text_specs "B" ∅ [YStr "x"; YStr "y"]
                          None None None]> (objects demo_heap))
       (dicts demo_heap)).
Proof.
  apply (@add_then_remove_restores text_specs demo_heap 1%positive demo_B
           (Text "z")); reflexivity.
Defined.

(** X15.  [add] does not look for duplicates: after adding a spec of which
    the raw list already has a candidate entry, [remove] of that spec fails
    its assertion, and the container keeps the added entry. *)
Theorem add_duplicate_blocks_remove `{SpecCapability} h self c spec s rest :
  objects h !! self = Some c ->
  startswith (str spec) "$" = false ->
  Spec_eqb (parse (str spec)) (as_spec spec) = true ->
  removal_candidates spec (yaml_list c) = s :: rest ->
  (add self spec;; remove self spec) h
  = (Raise AssertionError,
     mkHeap
       (<[self := mkSpecList (name c) (_reference c)
                    (yaml_list c ++ [YStr (str spec)])
                    ((fun l => l ++ [VStr (str spec)]) <$> _expanded_list c)
                    None None]> (objects h))
       (dicts h)).
Proof.
  intros Hc Hplain Hequal Hsome. rewrite (add_then_remove_run h self c) by done.
  rewrite (remove_outcome _ self
             (mkSpecList (name c) (_reference c)
                (yaml_list c ++ [YStr (str spec)])
                ((fun l => l ++ [VStr (str spec)]) <$> _expanded_list c)
                None None)) by apply lookup_insert_eq.
  cbn [yaml_list name _reference].
  rewrite removal_candidates_added, Hsome by done.
  by destruct rest.
Qed.

Lemma add_duplicate_blocks_remove_witness :
  (add (H := text_specs) 1%positive (Text "x");;
   remove 1%positive (Text "x")) demo_heap
  = (Raise AssertionError,
     mkHeap
       (<[1%positive :=
            @mkSpecList text_specs "B" ∅ [YStr "x"; YStr "y"; YStr "x"]
              (Some [VStr "x"; VStr "y"; VStr "x"]) None None]>
          (objects demo_heap))
       (dicts demo_heap)).
Proof.
  apply (@add_duplicate_blocks_remove text_specs demo_heap 1%positive demo_B
           (Text "x") "x" []); reflexivity.
Defined.

(** * Constraints and specs of a container *)

Section ViewFacts.
Context `{SpecMerging}.

Lemma specs_as_constraints_unfold depth self :
  specs_as_constraints (S depth) self
  = (c ← get_object self;
     match _constraints c with
     | None =>
         view ← specs_as_yaml_list depth self;
         constraints ← for_each (constraints_of_item depth) view [];
         update_object self (set_constraints (Some constraints));;
         mret constraints
     | Some constraints => mret constraints
     end).
Proof. reflexivity. Qed.

Lemma specs_unfold depth self :
  specs (S depth) self
  = (c ← get_object self;
     match _specs c with
     | None =>
         constraints ← specs_as_constraints depth self;
         specs ← for_each
           (fun specs constraint_list =>
              spec ← lift (spec_of_constraints constraint_list);
              mret (specs ++ [spec]))
           constraints [];
         update_object self (set_specs (Some specs));;
         mret specs
     | Some specs => mret specs
     end).
Proof. reflexivity. Qed.

(** Each string of the expanded view becomes a constraint list of one
    parsed spec. *)
Lemma constraints_of_strings depth xs acc h :
  for_each (constraints_of_item depth) (VStr <$> xs) acc h
  = (Ok (acc ++ ((fun s => [parse s]) <$> xs)), h).
Proof.
  revert acc. induction xs as [|s xs IH]; intros acc.
  - cbn. by rewrite app_nil_r.
  - cbn [fmap list_fmap for_each].
    erewrite bind_run by reflexivity.
    change (for_each (constraints_of_item depth) (VStr <$> xs)
              (acc ++ [[parse s]]) h
            = (Ok (acc ++ [parse s] :: ((fun s => [parse s]) <$> xs)), h)).
    rewrite IH. by rewrite <- app_assoc.
Qed.

(** A constraint list of one spec becomes a copy of that spec. *)
Lemma specs_of_singletons (ps : list Spec) acc h :
  for_each
    (fun specs constraint_list =>
       spec ← lift (spec_of_constraints constraint_list);
       mret (specs ++ [spec]))
    ((fun p => [p]) <$> ps) acc h
  = (Ok (acc ++ (Spec_copy <$> ps)), h).
Proof.
  revert acc. induction ps as [|p ps IH]; intros acc.
  - cbn. by rewrite app_nil_r.
  - cbn [fmap list_fmap for_each].
    erewrite bind_run by reflexivity.
    change (for_each
              (fun specs constraint_list =>
                 spec ← lift (spec_of_constraints constraint_list);
                 mret (specs ++ [spec]))
              ((fun p => [p]) <$> ps) (acc ++ [Spec_copy p]) h
            = (Ok (acc ++ Spec_copy p :: (Spec_copy <$> ps)), h)).
    rewrite IH. by rewrite <- app_assoc.
Qed.

(** The constraints and the specs of a container whose cached view holds
    strings only. *)
Lemma constraints_from_string_view depth self c ys h :
  objects h !! self = Some c ->
  _expanded_list c = Some (VStr <$> ys) ->
  _constraints c = None ->
  specs_as_constraints (S (S depth)) self h
  = (Ok ((fun s => [parse s]) <$> ys),
     mkHeap
       (<[self := set_constraints (Some ((fun s => [parse s]) <$> ys)) c]>
          (objects h))
       (dicts h)).
Proof.
  intros Hc Hview Hstale. rewrite specs_as_constraints_unfold.
  erewrite bind_run by (by apply get_object_run).
  cbn beta. rewrite Hstale.
  erewrite bind_run by (by eapply cached_view_run).
  erewrite bind_run by apply constraints_of_strings.
  erewrite bind_run by (by apply update_object_run).
  done.
Qed.

Lemma specs_from_string_view depth self c ys h :
  objects h !! self = Some c ->
  _expanded_list c = Some (VStr <$> ys) ->
  _constraints c = None ->
  _specs c = None ->
  specs (S (S (S depth))) self h
  = (Ok ((fun s => Spec_copy (parse s)) <$> ys),
     mkHeap
       (<[self := mkSpecList (name c) (_reference c) (yaml_list c)
                    (Some (VStr <$> ys))
                    (Some ((fun s => [parse s]) <$> ys))
                    (Some ((fun s => Spec_copy (parse s)) <$> ys))]>
          (objects h))
       (dicts h)).
Proof.
  intros Hc Hview Hstale Hstale'. rewrite specs_unfold.
  erewrite bind_run by (by apply get_object_run).
  cbn beta. rewrite Hstale'.
  erewrite bind_run by (by eapply constraints_from_string_view).
  assert ((fun s => [parse s]) <$> ys
          = (fun p => [p]) <$> (parse <$> ys)) as ->.
  { by rewrite <- list_fmap_compose. }
  erewrite bind_run by apply specs_of_singletons.
  erewrite bind_run by apply update_object_again.
  cbn [app mret M_ret]. rewrite <- !list_fmap_compose.
  destruct c; cbn in *. by subst.
Qed.

Lemma list_getitem_last {A} (l : list A) x :
  list_getitem (l ++ [x]) (-1) = Ok x.
Proof.
  unfold list_getitem. rewrite length_app. cbn [length].
  change (-1 <? 0)%Z with true. cbn match.
  replace (-1 + Z.of_nat (length l + 1))%Z with (Z.of_nat (length l))
    by lia.
  rewrite Nat2Z.id.
  assert ((Z.of_nat (length l) <? 0)%Z = false) as ->
    by (apply Z.ltb_ge; lia).
  assert ((Z.of_nat (length l + 1) <=? Z.of_nat (length l))%Z = false) as ->
    by (apply Z.leb_gt; lia).
  cbn [orb]. by rewrite lookup_app_r, Nat.sub_diag.
Qed.
End ViewFacts.

(** X16.  A spec added to a container whose cached view holds strings is
    its last spec, and the container is one spec longer than the view was:
    the view is extended in place, and the constraints and the specs are
    computed anew from it, whatever was cached for them before. *)
Theorem added_spec_is_last `{SpecMerging} depth h self c spec ys :
  objects h !! self = Some c ->
  _expanded_list c = Some (VStr <$> ys) ->
  ((add self spec;; __len__ (S (S (S (S depth)))) self) h).1
  = Ok (S (length ys))
  /\ ((add self spec;; __getitem__ (S (S (S (S depth)))) self (-1)) h).1
     = Ok (Spec_copy (parse (str spec))).
Proof.
  intros Hc Hview.
  pose (c' := mkSpecList (name c) (_reference c)
                (yaml_list c ++ [YStr (str spec)])
                (Some (VStr <$> (ys ++ [str spec]))) None None).
  assert (add self spec h
          = (Ok tt, mkHeap (<[self := c']> (objects h)) (dicts h))) as Hadd.
  { rewrite (add_run h self c) by done. rewrite Hview.
    unfold c'. by rewrite fmap_app. }
  pose proof (specs_from_string_view depth self c' (ys ++ [str spec])
                (mkHeap (<[self := c']> (objects h)) (dicts h))
                (lookup_insert_eq _ _ _) eq_refl eq_refl eq_refl)
    as Hspecs.
  split.
  - erewrite bind_run by exact Hadd. unfold __len__.
    erewrite bind_run by exact Hspecs.
    cbn [mret M_ret fst]. rewrite length_fmap, length_app. cbn [length].
    f_equal. lia.
  - erewrite bind_run by exact Hadd. unfold __getitem__.
    erewrite bind_run by exact Hspecs.
    unfold lift. cbn [fst]. rewrite fmap_app. apply list_getitem_last.
Qed.

Lemma added_spec_is_last_witness :
  ((add (H := text_specs) 1%positive (Text "z @1");;
    __len__ 4 1%positive) demo_heap).1 = Ok 3
  /\ ((add (H := text_specs) 1%positive (Text "z @1");;
       __getitem__ 4 1%positive (-1)) demo_heap).1 = Ok "z@1".
Proof.
  apply (@added_spec_is_last text_specs text_merging 0 demo_heap 1%positive
           demo_B (Text "z @1") ["x"; "y"]); reflexivity.
Defined.

(** X17.  For a container whose raw entries are all strings that do not
    start with [$], one read of [specs] fills the three caches from the
    raw list: the view holds the strings, the constraints one parsed spec
    for each string, and the specs a copy of each of these, in the order
    of the raw list. *)
Theorem plain_container_specs `{SpecMerging} depth self c xs h :
  objects h !! self = Some c ->
  _expanded_list c = None ->
  _constraints c = None ->
  _specs c = None ->
  yaml_list c = YStr <$> xs ->
  Forall (fun s => startswith s "$" = false) xs ->
  specs (S (S (S (S depth)))) self h
  = (Ok ((fun s => Spec_copy (parse s)) <$> xs),
     mkHeap
       (<[self := mkSpecList (name c) (_reference c) (yaml_list c)
                    (Some (VStr <$> xs))
                    (Some ((fun s => [parse s]) <$> xs))
                    (Some ((fun s => Spec_copy (parse s)) <$> xs))]>
          (objects h))
       (dicts h)).
Proof.
  intros Hc Hview Hconstraints Hspecs Hraw Hplain. rewrite specs_unfold.
  erewrite bind_run by (by apply get_object_run).
  cbn beta. rewrite Hspecs.
  erewrite bind_run.
  2:{ rewrite specs_as_constraints_unfold.
      erewrite bind_run by (by apply get_object_run).
      cbn beta. rewrite Hconstraints.
      erewrite bind_run by (by apply plain_view_run).
      erewrite bind_run by apply constraints_of_strings.
      erewrite bind_run by apply update_object_again.
      done. }
  assert ((fun s => [parse s]) <$> xs
          = (fun p => [p]) <$> (parse <$> xs)) as ->.
  { by rewrite <- list_fmap_compose. }
  erewrite bind_run by apply specs_of_singletons.
  erewrite bind_run by apply update_object_again.
  cbn [app mret M_ret]. rewrite <- !list_fmap_compose.
  destruct c; cbn in *. by subst.
Qed.

Lemma plain_container_specs_witness :
  specs (H := text_specs) 4 1%positive
    (mkHeap {[ 1%positive :=
                 @mkSpecList text_specs "B" ∅ (YStr <$> ["x  @1"; "y"])
                   None None None ]} ∅)
  = (Ok ["x@1"; "y"],
     mkHeap (<[1%positive :=
                 @mkSpecList text_specs "B" ∅ (YStr <$> ["x  @1"; "y"])
                   (Some [VStr "x  @1"; VStr "y"])
                   (Some [["x@1"]; ["y"]])
                   (Some ["x@1"; "y"])]>
               {[ 1%positive :=
                    @mkSpecList text_specs "B" ∅ (YStr <$> ["x  @1"; "y"])
                      None None None ]}) ∅).
Proof.
  exact (@plain_container_specs text_specs text_merging 0 1%positive
           (@mkSpecList text_specs "B" ∅ (YStr <$> ["x  @1"; "y"])
              None None None) ["x  @1"; "y"]
           (mkHeap {[ 1%positive :=
                        @mkSpecList text_specs "B" ∅
                          (YStr <$> ["x  @1"; "y"]) None None None ]} ∅)
           eq_refl eq_refl eq_refl eq_refl eq_refl
           ltac:(repeat constructor)).
Defined.

Section EmptyMatrix.
Context `{SpecMerging}.

(** The resolver copies a record without rows into a new dict object. *)
Lemma expand_rowless_record depth self h :
  _expand_references (S (S depth)) self (YDict [("matrix", YList [])]) h
  = (Ok (VDict (fresh (dom (dicts h)))),
     mkHeap (objects h)
       (<[fresh (dom (dicts h)) := {[ "matrix" := VList [] ]}]> (dicts h))).
Proof. reflexivity. Qed.

(** Read back through the store, that record expands to one combination
    without a token. *)
Lemma constraints_of_rowless_record depth acc o h :
  dicts h !! o = Some {[ "matrix" := VList [] ]} ->
  constraints_of_item (S depth) acc (VDict o) h = (Ok (acc ++ [[]]), h).
Proof.
  intros Ho. unfold constraints_of_item.
  erewrite bind_run by reflexivity.
  erewrite bind_run.
  2:{ unfold lift. cbn [snapshot]. rewrite Ho.
      rewrite map_to_list_singleton. cbn [comprehension snd fst].
      assert (snapshot depth (dicts h) (VList []) = Ok (YList [])) as ->
        by (by destruct depth).
      reflexivity. }
  erewrite bind_run by reflexivity. done.
Qed.
End EmptyMatrix.

(** X18.  A matrix record without rows has one combination, the empty
    one, and [specs] takes the first constraint of every combination: for
    a container of plain strings followed by the record [{matrix: []}],
    the constraints end in an empty list and [specs] raises [IndexError]. *)
Theorem rowless_matrix_breaks_specs `{SpecMerging} depth self c xs h :
  objects h !! self = Some c ->
  _expanded_list c = None ->
  _constraints c = None ->
  _specs c = None ->
  yaml_list c = (YStr <$> xs) ++ [YDict [("matrix", YList [])]] ->
  Forall (fun s => startswith s "$" = false) xs ->
  (specs_as_constraints (S (S (S (S (S depth))))) self h).1
  = Ok (((fun s => [parse s]) <$> xs) ++ [[]])
  /\ (specs (S (S (S (S (S (S depth)))))) self h).1 = Raise IndexError.
Proof.
  intros Hc Hview Hconstraints Hspecs Hraw Hplain.
  set (o := fresh (dom (dicts h))).
  set (view := (VStr <$> xs) ++ [VDict o]).
  set (ds := <[o := {[ "matrix" := VList [] ]}]> (dicts h)).
  assert (specs_as_yaml_list (S (S (S (S depth)))) self h
          = (Ok view,
             mkHeap (<[self := set_expanded_list (Some view) c]> (objects h))
               ds)) as Hread.
  { rewrite specs_as_yaml_list_unfold.
    erewrite bind_run by (by apply get_object_run).
    cbn beta. rewrite Hview, Hraw, expand_list_unfold.
    erewrite bind_run.
    2:{ erewrite bind_run; [done|].
        rewrite for_each_app, expand_plain_strings by done.
        cbn [for_each app expand_item].
        erewrite bind_run; [done|].
        erewrite bind_run by apply expand_rowless_record. done. }
    cbn beta iota.
    erewrite bind_run by (by apply update_object_run). done. }
  assert (specs_as_constraints (S (S (S (S (S depth))))) self h
          = (Ok (((fun s => [parse s]) <$> xs) ++ [[]]),
             mkHeap
               (<[self := set_constraints
                            (Some (((fun s => [parse s]) <$> xs) ++ [[]]))
                            (set_expanded_list (Some view) c)]> (objects h))
               ds)) as Hcons.
  { rewrite specs_as_constraints_unfold.
    erewrite bind_run by (by apply get_object_run).
    cbn beta. rewrite Hconstraints.
    erewrite bind_run by exact Hread.
    erewrite bind_run.
    2:{ unfold view. rewrite for_each_app, constraints_of_strings.
        cbn [for_each app].
        erewrite bind_run; [done|].
        apply constraints_of_rowless_record. apply lookup_insert_eq. }
    erewrite bind_run by apply update_object_again. done. }
  split; [by rewrite Hcons|].
  rewrite specs_unfold.
  erewrite bind_run by (by apply get_object_run).
  cbn beta. rewrite Hspecs.
  erewrite bind_run by exact Hcons.
  erewrite bind_raise; [done|].
  assert ((fun s => [parse s]) <$> xs
          = (fun p => [p]) <$> (parse <$> xs)) as ->.
  { by rewrite <- list_fmap_compose. }
  rewrite for_each_app, specs_of_singletons. reflexivity.
Qed.

Lemma rowless_matrix_breaks_specs_witness :
  (specs_as_constraints (H := text_specs) 5 1%positive
     (mkHeap {[ 1%positive :=
                  @mkSpecList text_specs "B" ∅
                    [YStr "x"; YDict [("matrix", YList [])]]
                    None None None ]} ∅)).1
  = Ok [["x"]; []]
  /\ (specs (H := text_specs) 6 1%positive
        (mkHeap {[ 1%positive :=
                     @mkSpecList text_specs "B" ∅
                       [YStr "x"; YDict [("matrix", YList [])]]
                       None None None ]} ∅)).1
     = Raise IndexError.
Proof.
  exact (@rowless_matrix_breaks_specs text_specs text_merging 0 1%positive
           (@mkSpecList text_specs "B" ∅
              [YStr "x"; YDict [("matrix", YList [])]] None None None)
           ["x"]
           (mkHeap {[ 1%positive :=
                        @mkSpecList text_specs "B" ∅
                          [YStr "x"; YDict [("matrix", YList [])]]
                          None None None ]} ∅)
           eq_refl eq_refl eq_refl eq_refl eq_refl
           ltac:(repeat constructor)).
Defined.

(** X19.  A reference to a name that the reference map does not bind makes
    every view of the container raise [UndefinedReferenceError], with a
    message that names the container and the list: the expanded view, the
    constraints and the specs.  Nothing is cached, and the entries
    expanded before the reference are lost with it. *)
Theorem unbound_reference_raises `{SpecMerging}
    depth self c xs sigil n rest h :
  objects h !! self = Some c ->
  _expanded_list c = None ->
  _constraints c = None ->
  _specs c = None ->
  yaml_list c = (YStr <$> xs) ++ YStr ("$" +:+ sigil +:+ n) :: rest ->
  Forall (fun s => startswith s "$" = false) xs ->
  sigil ∈ [""; "^"; "%"] ->
  startswith n "^" = false ->
  startswith n "%" = false ->
  _reference c !! n = None ->
  let error :=
    UndefinedReferenceError (undefined_reference_message (name c) n) in
  specs_as_yaml_list (S (S depth)) self h = (Raise error, h)
  /\ specs_as_constraints (S (S (S depth))) self h = (Raise error, h)
  /\ specs (S (S (S (S depth)))) self h = (Raise error, h).
Proof.
  intros Hc Hview Hconstraints Hspecs Hraw Hplain Hsigil Hcaret Hpercent Hn
    error.
  pose proof (read_unbound_reference depth self c xs sigil n rest h
                Hc Hview Hraw Hplain Hsigil Hcaret Hpercent Hn) as Hread.
  assert (specs_as_constraints (S (S (S depth))) self h = (Raise error, h))
    as Hcons.
  { rewrite specs_as_constraints_unfold.
    erewrite bind_run by (by apply get_object_run).
    cbn beta. rewrite Hconstraints.
    by erewrite bind_raise by exact Hread. }
  split_and!; [done..|].
  rewrite specs_unfold.
  erewrite bind_run by (by apply get_object_run).
  cbn beta. rewrite Hspecs.
  by erewrite bind_raise by exact Hcons.
Qed.

Lemma unbound_reference_raises_witness :
  let h :=
    mkHeap {[ 1%positive :=
                @mkSpecList text_specs "A" ∅
                  ((YStr <$> ["zlib"]) ++ YStr ("$" +:+ "^" +:+ "B") :: [])
                  None None None ]} ∅ in
  let error := UndefinedReferenceError (undefined_reference_message "A" "B") in
  specs_as_yaml_list (H := text_specs) 2 1%positive h = (Raise error, h)
  /\ specs_as_constraints (H := text_specs) 3 1%positive h = (Raise error, h)
  /\ specs (H := text_specs) 4 1%positive h = (Raise error, h).
Proof.
  exact (@unbound_reference_raises text_specs text_merging 0 1%positive
           (@mkSpecList text_specs "A" ∅
              ((YStr <$> ["zlib"]) ++ YStr ("$" +:+ "^" +:+ "B") :: [])
              None None None) ["zlib"] "^" "B" []
           (mkHeap {[ 1%positive :=
                @mkSpecList text_specs "A" ∅
                  ((YStr <$> ["zlib"]) ++ YStr ("$" +:+ "^" +:+ "B") :: [])
                  None None None ]} ∅)
           eq_refl eq_refl eq_refl eq_refl eq_refl
           ltac:(repeat constructor)
           ltac:(apply list_elem_of_further, list_elem_of_here)
           eq_refl eq_refl eq_refl).
Defined.

(** X20.  [extend] with [copy_reference] replaces the reference map of the
    container by that of the other one: a reference among the own entries
    to a name that the other map does not bind, bound before or not, makes
    the next read of the view raise [UndefinedReferenceError]. *)
Theorem extend_replaces_reference `{SpecCapability}
    depth self other c o xs sigil n rest h :
  objects h !! self = Some c ->
  objects h !! other = Some o ->
  yaml_list c = (YStr <$> xs) ++ YStr ("$" +:+ sigil +:+ n) :: rest ->
  Forall (fun s => startswith s "$" = false) xs ->
  sigil ∈ [""; "^"; "%"] ->
  startswith n "^" = false ->
  startswith n "%" = false ->
  _reference o !! n = None ->
  (extend self other true;; specs_as_yaml_list (S (S depth)) self) h
  = (Raise (UndefinedReferenceError
              (undefined_reference_message (name c) n)),
     mkHeap
       (<[self := mkSpecList (name c) (_reference o)
                    (yaml_list c ++ yaml_list o) None None None]>
          (objects h))
       (dicts h)).
Proof.
  intros Hc Ho Hraw Hplain Hsigil Hcaret Hpercent Hn.
  erewrite bind_run by (by apply extend_run).
  apply (read_unbound_reference depth self
           (mkSpecList (name c) (_reference o)
              (yaml_list c ++ yaml_list o) None None None)
           xs sigil n (rest ++ yaml_list o)); try done.
  - apply lookup_insert_eq.
  - cbn [yaml_list]. rewrite Hraw. by rewrite <- app_assoc.
Qed.

Lemma extend_replaces_reference_witness :
  (extend (H := text_specs) 2%positive 1%positive true;;
   specs_as_yaml_list 2 2%positive)
    (mkHeap {[ 1%positive := demo_B;
               2%positive :=
                 @mkSpecList text_specs "A" {[ "B" := 1%positive ]}
                   [YStr "a"; YStr ("$" +:+ "^" +:+ "B")]
                   None None None ]}
            ∅)
  = (Raise (UndefinedReferenceError (undefined_reference_message "A" "B")),
     mkHeap (<[2%positive :=
                 @mkSpecList text_specs "A" ∅
                   [YStr "a"; YStr ("$" +:+ "^" +:+ "B"); YStr "x"; YStr "y"]
                   None None None]>
               {[ 1%positive := demo_B;
                  2%positive :=
                    @mkSpecList text_specs "A" {[ "B" := 1%positive ]}
                      [YStr "a"; YStr ("$" +:+ "^" +:+ "B")]
                      None None None ]})
            ∅).
Proof.
  exact (@extend_replaces_reference text_specs 0 2%positive 1%positive
           (@mkSpecList text_specs "A" {[ "B" := 1%positive ]}
              [YStr "a"; YStr ("$" +:+ "^" +:+ "B")] None None None)
           demo_B ["a"] "^" "B" []
           (mkHeap {[ 1%positive := demo_B;
                      2%positive :=
                        @mkSpecList text_specs "A" {[ "B" := 1%positive ]}
                          [YStr "a"; YStr ("$" +:+ "^" +:+ "B")]
                          None None None ]}
                   ∅)
           eq_refl eq_refl eq_refl
           ltac:(repeat constructor)
           ltac:(apply list_elem_of_further, list_elem_of_here)
           eq_refl eq_refl eq_refl).
Defined.
